(** * obs_cfht: the CFHT instrument-signature-removal task

    A shallow embedding of [CfhtIsrTask.run]
    (python/lsst/obs/cfht/cfhtIsrTask.py) and the properties of its
    saturation estimate and of its per-amplifier gain / read-noise repair.

    Numbers.  Pixel values, metadata scalars and the [safe] option are Python
    floats in the source.  A finite float is embedded as the rational [Q] it
    denotes; the comparisons of the source are then the comparisons of [Q].
    Wherever the source computes with floats (the sum [maxValue + 1.0], the
    edges and the bin indices of [np.histogram], the product [safe * edge])
    the embedding computes in binary64: the exact result is rounded to the
    nearest binary64 number, ties to even, and overflows to an infinity, so
    that a result is a finite number, an infinity or NaN.  Signed zeros are
    not told apart, and the inputs themselves are finite.

    Effects.  [run] reads the exposure, raises exceptions, writes one log
    record and replaces the exposure's detector.  It is embedded in a small
    state-and-error monad over the exposure and a trace of the observable
    actions (metadata reads, the histogram call, the log record). *)

From Stdlib Require Import QArith Qround Qpower Qreduction Lqa Floats.
From stdpp Require Import base gmap strings list.

Local Open Scope Q_scope.

(** ** Python numbers *)

(** [int(x)] on a float: truncation toward zero. *)
Definition int (x : Q) : Z := Z.quot (Qnum x) (Zpos (Qden x)).

(** [x > y] on floats, as a boolean. *)
Definition Qgtb (x y : Q) : bool := negb (Qle_bool x y).

(** A float that holds a non-negative whole number. *)
Definition is_integer (x : Q) : Prop := ∃ z : Z, x == inject_Z z.
Definition nonneg_integer (x : Q) : Prop := ∃ z : Z, (0 <= z)%Z ∧ x == inject_Z z.

(** ** Binary64 arithmetic *)

Definition pow2 (e : Z) : Q := 2 ^ e.

(** The binade of a positive rational: [2^k <= x < 2^(k+1)]. *)
Definition ilog2 (x : Q) : Z :=
  let k := (Z.log2 (Qnum x) - Z.log2 (Zpos (Qden x)))%Z in
  if Qle_bool (pow2 k) x then k else (k - 1)%Z.

(** The nearest integer, ties to even. *)
Definition rne (x : Q) : Z :=
  let f := Qfloor x in
  match Qcompare (x - inject_Z f) (1 # 2) with
  | Lt => f
  | Gt => (f + 1)%Z
  | Eq => if Z.even f then f else (f + 1)%Z
  end.

(** The exponent of the last place of a positive number in binary64: 53
    significant bits, and never below the subnormal exponent -1074. *)
Definition ulp_exponent (x : Q) : Z := Z.max (-1074) (ilog2 x - 52).

(** A positive number rounded to 53 bits, the exponent unbounded above. *)
Definition round_pos (x : Q) : Q :=
  let e := ulp_exponent x in
  Qred (inject_Z (rne (x / pow2 e)) * pow2 e).

(** The largest finite binary64 number. *)
Definition b64_max : Q := inject_Z (2 ^ 53 - 1) * pow2 971.

(** The result of a float operation. *)
Inductive b64 :=
  | Fin (q : Q)
  | Inf (negative : bool)
  | NaN.

(** The binary64 number nearest to a rational; an infinity beyond the
    largest finite one. *)
Definition round (x : Q) : b64 :=
  match Qcompare x 0 with
  | Eq => Fin 0
  | Gt => let r := round_pos x in
          if Qle_bool r b64_max then Fin r else Inf false
  | Lt => let r := round_pos (- x) in
          if Qle_bool r b64_max then Fin (- r) else Inf true
  end.

Definition is_negative (a : Q) : bool := negb (Qle_bool 0 a).

Definition b64_opp (x : b64) : b64 :=
  match x with
  | Fin a => Fin (- a)
  | Inf s => Inf (negb s)
  | NaN => NaN
  end.

Definition b64_add (x y : b64) : b64 :=
  match x, y with
  | NaN, _ | _, NaN => NaN
  | Fin a, Fin b => round (a + b)
  | Inf s, Inf s' => if Bool.eqb s s' then Inf s else NaN
  | Inf s, Fin _ | Fin _, Inf s => Inf s
  end.

Definition b64_sub (x y : b64) : b64 := b64_add x (b64_opp y).

Definition b64_mul (x y : b64) : b64 :=
  match x, y with
  | NaN, _ | _, NaN => NaN
  | Fin a, Fin b => round (a * b)
  | Inf s, Inf s' => Inf (xorb s s')
  | Inf s, Fin a | Fin a, Inf s =>
      if Qeq_bool a 0 then NaN else Inf (xorb s (is_negative a))
  end.

Definition b64_div (x y : b64) : b64 :=
  match x, y with
  | NaN, _ | _, NaN => NaN
  | Fin a, Fin b =>
      if Qeq_bool b 0
      then (if Qeq_bool a 0 then NaN else Inf (is_negative a))
      else round (a / b)
  | Inf _, Inf _ => NaN
  | Inf s, Fin a => Inf (xorb s (is_negative a))
  | Fin _, Inf _ => Fin 0
  end.

(** Comparisons: every comparison with NaN is false. *)
Definition b64_leb (x y : b64) : bool :=
  match x, y with
  | NaN, _ | _, NaN => false
  | Fin a, Fin b => Qle_bool a b
  | Inf true, _ | _, Inf false => true
  | Inf false, _ | _, Inf true => false
  end.

Definition b64_ltb (x y : b64) : bool :=
  match x, y with
  | NaN, _ | _, NaN => false
  | _, _ => negb (b64_leb y x)
  end.

Definition b64_eqb (x y : b64) : bool := b64_leb x y && b64_leb y x.

Definition is_finite (x : b64) : bool :=
  match x with
  | Fin _ => true
  | _ => false
  end.

(** The order of the results that are not NaN. *)
Definition b64_le (x y : b64) : Prop :=
  match x, y with
  | Fin a, Fin b => a <= b
  | Inf true, Fin _ | Inf true, Inf _ => True
  | Fin _, Inf false | Inf false, Inf false => True
  | _, _ => False
  end.

(** The binary64 number that a decimal literal of the source denotes. *)
Definition literal (q : Q) : Q :=
  match round q with
  | Fin v => v
  | _ => q
  end.

(** What the machine's own binary64 numbers denote, for comparison. *)
Definition of_spec_float (f : spec_float) : b64 :=
  match f with
  | S754_zero _ => Fin 0
  | S754_infinity s => Inf s
  | S754_nan => NaN
  | S754_finite s m e =>
      Fin (Qred ((if s then -1 else 1) * inject_Z (Zpos m) * pow2 e))
  end.

Definition of_float (f : float) : b64 := of_spec_float (Prim2SF f).

(** ** Data model *)

Module Camera.

(** Integer pixel box of the afw geometry: corner and extent. *)
Record Box := { minX : Z; minY : Z; width : Z; height : Z }.

Inductive ReadoutCorner := LL | LR | UR | UL.

(** An amplifier record of [lsst.afw.cameraGeom]: the name, the three
    calibration scalars that [run] overwrites, and the fields of the
    electronic and geometric description that it never touches. *)
Record Amplifier := {
  name : string;
  saturation : Q;
  gain : Q;
  readNoise : Q;
  suspectLevel : Q;
  bbox : Box;
  rawBBox : Box;
  rawDataBBox : Box;
  readoutCorner : ReadoutCorner;
  linearityType : string;
  linearityCoeffs : list Q;
  rawFlipX : bool;
  rawFlipY : bool
}.

(** [amp.rebuild()]: a mutable builder holding a copy of every field. *)
Definition rebuildAmp (amp : Amplifier) : Amplifier := amp.

Definition getName (amp : Amplifier) : string := name amp.

Definition setSaturation (v : Q) (a : Amplifier) : Amplifier :=
  {| name := name a; saturation := v; gain := gain a;
     readNoise := readNoise a; suspectLevel := suspectLevel a;
     bbox := bbox a; rawBBox := rawBBox a; rawDataBBox := rawDataBBox a;
     readoutCorner := readoutCorner a; linearityType := linearityType a;
     linearityCoeffs := linearityCoeffs a;
     rawFlipX := rawFlipX a; rawFlipY := rawFlipY a |}.

Definition setGain (v : Q) (a : Amplifier) : Amplifier :=
  {| name := name a; saturation := saturation a; gain := v;
     readNoise := readNoise a; suspectLevel := suspectLevel a;
     bbox := bbox a; rawBBox := rawBBox a; rawDataBBox := rawDataBBox a;
     readoutCorner := readoutCorner a; linearityType := linearityType a;
     linearityCoeffs := linearityCoeffs a;
     rawFlipX := rawFlipX a; rawFlipY := rawFlipY a |}.

Definition setReadNoise (v : Q) (a : Amplifier) : Amplifier :=
  {| name := name a; saturation := saturation a; gain := gain a;
     readNoise := v; suspectLevel := suspectLevel a;
     bbox := bbox a; rawBBox := rawBBox a; rawDataBBox := rawDataBBox a;
     readoutCorner := readoutCorner a; linearityType := linearityType a;
     linearityCoeffs := linearityCoeffs a;
     rawFlipX := rawFlipX a; rawFlipY := rawFlipY a |}.

(** A detector: its identity and the ordered amplifiers. *)
Record Detector := {
  detName : string;
  detId : Z;
  detSerial : string;
  detBBox : Box;
  amplifiers : list Amplifier
}.

(** [ccd.rebuild()], [builder.clear()], [builder.append(amp)] and
    [builder.finish()] of the detector builder. *)
Definition rebuild (ccd : Detector) : Detector := ccd.

Definition clear (b : Detector) : Detector :=
  {| detName := detName b; detId := detId b; detSerial := detSerial b;
     detBBox := detBBox b; amplifiers := [] |}.

Definition append (b : Detector) (amp : Amplifier) : Detector :=
  {| detName := detName b; detId := detId b; detSerial := detSerial b;
     detBBox := detBBox b; amplifiers := amplifiers b ++ [amp] |}.

Definition finish (b : Detector) : Detector := b.

End Camera.
Export Camera.

(** An exposure: the detector it refers to, the pixel grid (rows of
    values) and the header metadata, a map from key to scalar. *)
Record Exposure := {
  detector : Detector;
  image : list (list Q);
  metadata : gmap string Q
}.

Definition withDetector (ccd : Detector) (e : Exposure) : Exposure :=
  {| detector := ccd; image := image e; metadata := metadata e |}.

(** [CfhtIsrTaskConfig]: the one option this task adds. *)
Record CfhtIsrTaskConfig := { safe : Q }.

(** The default of [safe] is the decimal literal 0.95. *)
Definition defaultConfig : CfhtIsrTaskConfig := {| safe := literal (95 # 100) |}.

(** ** Exceptions, observable actions and the monad *)

Inductive error :=
  | UnsupportedCorrection                (* ValueError, brighter-fatter kernel given *)
  | MissingMetadata (key : string)       (* getScalar on an absent key *)
  | UnexpectedAmplifier (amp : string)   (* ValueError, amplifier name not A or B *)
  | ZeroSizeArray                        (* np.max of an array without elements *)
  | HistogramRange                       (* np.histogram: max < min, or range not finite *)
  | IndexOutOfRange                      (* indexing past the end of an array *)
  | NegativeIndex                        (* np.bincount of a negative number *)
  | ShapeMismatch                        (* adding arrays of different lengths *)
  | OverflowError                        (* int() of an infinity *)
  | NaNConversion                        (* ValueError, int() of NaN *)
  | IsrFailure.                          (* raised inside IsrTask.run *)

Inductive result (A : Type) :=
  | Ok (a : A)
  | Err (e : error).
Arguments Ok {A} a.
Arguments Err {A} e.

Inductive event :=
  | ReadScalar (key : string)            (* metadata.getScalar(key) was called *)
  | Histogram (lo hi : b64)              (* np.histogram was called on this range *)
  | LogInfo (shown : Z).                 (* "Saturation set to %d": the number shown *)

Record world := {
  ccdExposure : Exposure;
  trace : list event                     (* oldest action first *)
}.

Definition M (A : Type) : Type := world → result A * world.

#[export] Instance M_ret : MRet M := λ A a w, (Ok a, w).
#[export] Instance M_bind : MBind M := λ A B f m w,
  match m w with
  | (Ok a, w') => f a w'
  | (Err e, w') => (Err e, w')
  end.

Definition raise {A} (e : error) : M A := λ w, (Err e, w).

Definition emit (ev : event) : M unit := λ w,
  (Ok (), {| ccdExposure := ccdExposure w; trace := trace w ++ [ev] |}).

Definition getExposure : M Exposure := λ w, (Ok (ccdExposure w), w).

Definition getDetector : M Detector := λ w, (Ok (detector (ccdExposure w)), w).

Definition setDetector (ccd : Detector) : M unit := λ w,
  (Ok (), {| ccdExposure := withDetector ccd (ccdExposure w); trace := trace w |}).

(** [metadata.getScalar(key)]: the value, or an exception when absent. *)
Definition getScalar (key : string) : M Q :=
  _ ← emit (ReadScalar key);
  e ← getExposure;
  match metadata e !! key with
  | Some v => mret v
  | None => raise (MissingMetadata key)
  end.

Definition liftR {A} (r : result A) : M A := λ w, (r, w).

(** ** Python conversions *)

(** [int(x)] on the result of a float operation. *)
Definition py_int (x : b64) : result Z :=
  match x with
  | Fin q => Ok (int q)
  | Inf _ => Err OverflowError
  | NaN => Err NaNConversion
  end.

(** ** numpy on flat arrays *)

(** [a.ravel()] of a two-dimensional array: the rows, one after another. *)
Definition ravel (a : list (list Q)) : list Q := concat a.

Definition fmax (x y : Q) : Q := if Qgtb y x then y else x.

(** [np.max(a)]: raises on an array without elements. *)
Definition np_max (a : list Q) : result Q :=
  match a with
  | [] => Err ZeroSizeArray
  | x :: t => Ok (foldl fmax x t)
  end.

Definition of_nat (i : nat) : b64 := Fin (inject_Z (Z.of_nat i)).

(** [np.linspace(start, stop, num)] with the end point included:
    [arange(num) * step + start] with [step = (stop - start) / (num - 1)]
    (through [y / div * delta] when the step is zero, and [y * delta] when
    there is no step), the last entry then set to [stop] when [num > 1]. *)
Definition np_linspace (start stop : b64) (num : nat) : list b64 :=
  let div := (num - 1)%nat in
  let delta := b64_sub stop start in
  let y := of_nat <$> seq 0 num in
  let y :=
    if Nat.ltb 0 div then
      let step := b64_div delta (of_nat div) in
      if b64_eqb step (Fin 0)
      then (λ v, b64_mul (b64_div v (of_nat div)) delta) <$> y
      else (λ v, b64_mul v step) <$> y
    else (λ v, b64_mul v delta) <$> y in
  let y := (λ v, b64_add v start) <$> y in
  if Nat.ltb 1 num then take (num - 1) y ++ [stop] else y.

(** [np.bincount(x, minlength)]: how often each index occurs; raises on a
    negative index. *)
Definition np_bincount (x : list Z) (minlength : nat) : result (list nat) :=
  if forallb (λ i, Z.leb 0 i) x then
    let len := match x with
               | [] => minlength
               | _ => Nat.max minlength (S (list_max (map Z.to_nat x)))
               end in
    Ok (map (λ i, count_occ Z.eq_dec x (Z.of_nat i)) (seq 0 len))
  else Err NegativeIndex.

(** The outer edges of a histogram from its [range] argument. *)
Definition outer_edges (range : b64 * b64) : result (b64 * b64) :=
  let '(first_edge, last_edge) := range in
  if b64_ltb last_edge first_edge then Err HistogramRange
  else if negb (is_finite first_edge && is_finite last_edge)
  then Err HistogramRange
  else if b64_eqb first_edge last_edge
  then Ok (b64_sub first_edge (Fin (1 # 2)), b64_add last_edge (Fin (1 # 2)))
  else Ok (first_edge, last_edge).

(** [a[i]] with an index that may be negative: it then counts from the end. *)
Definition item_at (a : list b64) (i : Z) : result b64 :=
  let len := Z.of_nat (length a) in
  let j := if Z.ltb i 0 then (i + len)%Z else i in
  if Z.ltb j 0 then Err IndexOutOfRange
  else match a !! Z.to_nat j with
       | Some v => Ok v
       | None => Err IndexOutOfRange
       end.

(** [x.astype(np.intp)]: truncation; outside the 64-bit integers, and for
    infinities and NaN, the smallest 64-bit integer. *)
Definition astype_intp (x : b64) : Z :=
  match x with
  | Fin q => let z := int q in
             if Z.leb (- 2 ^ 63) z && Z.ltb z (2 ^ 63) then z else (- 2 ^ 63)%Z
  | _ => (- 2 ^ 63)%Z
  end.

(** The bin of one kept value, as [np.histogram] computes it for bins of
    equal width: scale by [(v - first_edge) / norm_denom * n_equal_bins],
    truncate, put the right edge into the last bin, then move by one where
    the value is on the wrong side of a bin edge. *)
Definition bin_index (first_edge norm_denom : b64) (n_equal_bins : nat)
    (bin_edges : list b64) (v : Q) : result Z :=
  let n := Z.of_nat n_equal_bins in
  let f_index := b64_mul (b64_div (b64_sub (Fin v) first_edge) norm_denom)
                         (of_nat n_equal_bins) in
  let i := astype_intp f_index in
  let i := if Z.eqb i n then (i - 1)%Z else i in
  match item_at bin_edges i with
  | Err e => Err e
  | Ok edge =>
      let i := if b64_ltb (Fin v) edge then (i - 1)%Z else i in
      match item_at bin_edges (i + 1) with
      | Err e => Err e
      | Ok next =>
          Ok (if b64_leb next (Fin v) && negb (Z.eqb i (n - 1))
              then (i + 1)%Z else i)
      end
  end.

(** A function applied to every element, stopping at the first exception. *)
Fixpoint mapR_list {A B} (f : A → result B) (l : list A) : result (list B) :=
  match l with
  | [] => Ok []
  | x :: t =>
      match f x with
      | Err e => Err e
      | Ok y => match mapR_list f t with
                | Err e => Err e
                | Ok r => Ok (y :: r)
                end
      end
  end.

(** [np.histogram(a, bins, range)] for an integer [bins]: the counts and
    the [bins + 1] edges. *)
Definition np_histogram (a : list Q) (bins : nat) (range : b64 * b64)
    : result (list nat * list b64) :=
  match outer_edges range with
  | Err e => Err e
  | Ok (first_edge, last_edge) =>
      let bin_edges := np_linspace first_edge last_edge (bins + 1) in
      let norm_denom := b64_sub last_edge first_edge in
      let keep := filter (λ v, b64_leb first_edge (Fin v)
                               && b64_leb (Fin v) last_edge) a in
      match mapR_list (bin_index first_edge norm_denom bins bin_edges) keep with
      | Err e => Err e
      | Ok indices =>
          match np_bincount indices bins with
          | Err e => Err e
          | Ok counts =>
              if Nat.eqb (length counts) bins then Ok (counts, bin_edges)
              else Err ShapeMismatch
          end
      end
  end.

Fixpoint argmax_from (l : list nat) (i best_i best : nat) : nat :=
  match l with
  | [] => best_i
  | x :: t => if Nat.ltb best x then argmax_from t (S i) i x
              else argmax_from t (S i) best_i best
  end.

(** [np.argmax(a)]: the first index that holds the largest entry. *)
Definition np_argmax (a : list nat) : result nat :=
  match a with
  | [] => Err ZeroSizeArray
  | x :: t => Ok (argmax_from t 1 0 x)
  end.

(** [a[i]]. *)
Definition item (a : list b64) (i : nat) : result b64 :=
  match a !! i with
  | Some v => Ok v
  | None => Err IndexOutOfRange
  end.

(** ** CfhtIsrTask.run *)

(** Lines 74 to 82: the saturation level of the exposure. *)
Definition detectSaturation (config : CfhtIsrTaskConfig) : M Q :=
  floatExposure ← getExposure;
  let imageArray := image floatExposure in
  maxValue ← liftR (np_max (ravel imageArray));
  saturate ←
    (if Qgtb maxValue 60000 then
       let range := (Fin 60000, b64_add (Fin maxValue) (Fin 1)) in
       _ ← emit (Histogram (fst range) (snd range));
       '(hist, bin_edges) ← liftR (np_histogram (ravel imageArray) 100 range);
       k ← liftR (np_argmax hist);
       edge ← liftR (item bin_edges k);
       saturate ← liftR (py_int (b64_mul (Fin (safe config)) edge));
       mret (inject_Z saturate)
     else getScalar "SATURATE");
  _ ← emit (LogInfo (int saturate));
  mret saturate.

(** Lines 87 to 111: the body of the loop, for one amplifier. *)
Definition repairAmp (saturate : Q) (amp : Amplifier) : M Amplifier :=
  let tempAmp := setSaturation saturate (rebuildAmp amp) in
  if String.eqb (getName tempAmp) "A" then
    gainA ← getScalar "GAINA";
    let tempAmp := setGain gainA tempAmp in
    rdnA ← getScalar "RDNOISEA";
    rdnA ← (if Qgtb rdnA 60000 then getScalar "RDNOISE" else mret rdnA);
    mret (setReadNoise rdnA tempAmp)
  else if String.eqb (getName tempAmp) "B" then
    gainB ← getScalar "GAINB";
    let tempAmp := setGain gainB tempAmp in
    rdnB ← getScalar "RDNOISEB";
    rdnB ← (if Qgtb rdnB 60000 then getScalar "RDNOISE" else mret rdnB);
    mret (setReadNoise rdnB tempAmp)
  else raise (UnexpectedAmplifier (getName amp)).

(** Lines 86 to 112: the loop over the amplifiers of the original detector,
    appending each repaired record to the builder. *)
Fixpoint repairAmps (saturate : Q) (amps : list Amplifier) (tempCcd : Detector)
    : M Detector :=
  match amps with
  | [] => mret tempCcd
  | amp :: rest =>
      tempAmp ← repairAmp saturate amp;
      repairAmps saturate rest (append tempCcd tempAmp)
  end.

(** Lines 84 to 114: the corrected detector for a given saturation level. *)
Definition repairDetector (saturate : Q) (ccd : Detector) : M Detector :=
  let tempCcd := clear (rebuild ccd) in
  tempCcd ← repairAmps saturate (amplifiers ccd) tempCcd;
  mret (finish tempCcd).

Section Run.

(** The calibration products that are passed through, the brighter-fatter
    kernel, and the base class method [IsrTask.run], which belongs to
    lsst.ip.isr: it receives the exposure and the products and returns its
    result structure, or raises; it may change the exposure. *)
Context {Calib Kernel Struct : Type}.
Variable IsrTask_run : Exposure → Calib → option Struct * Exposure.

Definition callIsrTask (calib : Calib) : M Struct := λ w,
  match IsrTask_run (ccdExposure w) calib with
  | (Some s, e) => (Ok s, {| ccdExposure := e; trace := trace w |})
  | (None, e) => (Err IsrFailure, {| ccdExposure := e; trace := trace w |})
  end.

(** Lines 61 to 115: everything [run] does before it delegates. *)
Definition prepare (config : CfhtIsrTaskConfig) (bfKernel : option Kernel)
    : M unit :=
  match bfKernel with
  | Some _ => raise UnsupportedCorrection
  | None =>
      ccd ← getDetector;
      saturate ← detectSaturation config;
      ccd ← repairDetector saturate ccd;
      setDetector ccd
  end.

Definition run (config : CfhtIsrTaskConfig) (calib : Calib)
    (bfKernel : option Kernel) : M Struct :=
  _ ← prepare config bfKernel;
  callIsrTask calib.

End Run.

(** ** The estimate of the histogram branch as a function

    What lines 78 and 79 compute from the pixels, their maximum and [safe],
    without the world. *)

Definition bindR {A B} (r : result A) (f : A → result B) : result B :=
  match r with
  | Ok a => f a
  | Err e => Err e
  end.

Definition histogramRange (maxValue : Q) : b64 * b64 :=
  (Fin 60000, b64_add (Fin maxValue) (Fin 1)).

(** The lower edge of the first bin with the largest count. *)
Definition peakEdge (a : list Q) (maxValue : Q) : result b64 :=
  bindR (np_histogram a 100 (histogramRange maxValue)) (λ '(hist, bin_edges),
  bindR (np_argmax hist) (λ k, item bin_edges k)).

Definition histogramLevel (safe : Q) (a : list Q) (maxValue : Q) : result Q :=
  bindR (peakEdge a maxValue) (λ edge,
  bindR (py_int (b64_mul (Fin safe) edge)) (λ saturate,
  Ok (inject_Z saturate))).

(** [k] holds the first largest entry of [hist]. *)
Definition first_max (hist : list nat) (k : nat) : Prop :=
  (k < length hist)%nat
  ∧ (∀ j, (j < length hist)%nat → (nth j hist 0 ≤ nth k hist 0)%nat)
  ∧ (∀ j, (j < k)%nat → (nth j hist 0 < nth k hist 0)%nat).

(** ** The outcome of the repair as a function of the metadata

    What the loop computes, without the world: the proofs below show that
    [repairAmp] and [repairAmps] return exactly these outcomes. *)

Definition lookupScalar (md : gmap string Q) (key : string) : result Q :=
  match md !! key with
  | Some v => Ok v
  | None => Err (MissingMetadata key)
  end.

Definition ampOutcome (md : gmap string Q) (saturate : Q) (amp : Amplifier)
    : result Amplifier :=
  let tempAmp := setSaturation saturate amp in
  if String.eqb (name amp) "A" then
    bindR (lookupScalar md "GAINA") (λ gainA,
    bindR (lookupScalar md "RDNOISEA") (λ rdnA,
    bindR (if Qgtb rdnA 60000 then lookupScalar md "RDNOISE" else Ok rdnA) (λ rdnA,
    Ok (setReadNoise rdnA (setGain gainA tempAmp)))))
  else if String.eqb (name amp) "B" then
    bindR (lookupScalar md "GAINB") (λ gainB,
    bindR (lookupScalar md "RDNOISEB") (λ rdnB,
    bindR (if Qgtb rdnB 60000 then lookupScalar md "RDNOISE" else Ok rdnB) (λ rdnB,
    Ok (setReadNoise rdnB (setGain gainB tempAmp)))))
  else Err (UnexpectedAmplifier (name amp)).

Fixpoint ampsOutcome (md : gmap string Q) (saturate : Q) (amps : list Amplifier)
    : result (list Amplifier) :=
  match amps with
  | [] => Ok []
  | amp :: rest =>
      bindR (ampOutcome md saturate amp) (λ tempAmp,
      bindR (ampsOutcome md saturate rest) (λ done, Ok (tempAmp :: done)))
  end.

(** Two amplifier records that agree on every field except the three
    calibration scalars. *)
Definition same_description (a b : Amplifier) : Prop :=
  name a = name b ∧ suspectLevel a = suspectLevel b
  ∧ bbox a = bbox b ∧ rawBBox a = rawBBox b ∧ rawDataBBox a = rawDataBBox b
  ∧ readoutCorner a = readoutCorner b
  ∧ linearityType a = linearityType b ∧ linearityCoeffs a = linearityCoeffs b
  ∧ rawFlipX a = rawFlipX b ∧ rawFlipY a = rawFlipY b.

(** The world after some more actions on an unchanged exposure. *)
Definition later (w : world) (t : list event) : world :=
  {| ccdExposure := ccdExposure w; trace := trace w ++ t |}.

Definition withAmplifiers (amps : list Amplifier) (b : Detector) : Detector :=
  {| detName := detName b; detId := detId b; detSerial := detSerial b;
     detBBox := detBBox b; amplifiers := amps |}.


Definition mapR {A B} (f : A → B) (r : result A) : result B :=
  match r with
  | Ok a => Ok (f a)
  | Err e => Err e
  end.

(** An amplifier name that the loop knows. *)
Definition expected (amp : Amplifier) : Prop := name amp = "A" ∨ name amp = "B".

(** The metadata keys that the loop may read. *)
Definition amplifierKeys : list string :=
  ["GAINA"; "RDNOISEA"; "GAINB"; "RDNOISEB"; "RDNOISE"].

(** ** Sample inputs *)

Definition ccdBox : Box := {| minX := 0; minY := 0; width := 1024; height := 4612 |}.

(** An amplifier as the camera description has it before the repair. *)
Definition ampNamed (n : string) : Amplifier :=
  {| name := n; saturation := 65535; gain := 1; readNoise := 0;
     suspectLevel := 60000; bbox := ccdBox; rawBBox := ccdBox;
     rawDataBBox := ccdBox; readoutCorner := LL;
     linearityType := "PROPORTIONAL"; linearityCoeffs := [0; 1];
     rawFlipX := false; rawFlipY := false |}.

Definition ccdOf (amps : list Amplifier) : Detector :=
  {| detName := "ccd00"; detId := 0; detSerial := "834175";
     detBBox := ccdBox; amplifiers := amps |}.

(** The usual detector, and one with a third, unknown amplifier. *)
Definition twoAmpCcd : Detector := ccdOf [ampNamed "A"; ampNamed "B"].
Definition oddCcd : Detector := ccdOf [ampNamed "A"; ampNamed "C"].

(** A header of the old exposures, with both read noises at 65535, and a
    sound one without the fallback key. *)
Definition legacyHeader : gmap string Q :=
  list_to_map [("SATURATE", 65535); ("GAINA", 162 # 100); ("GAINB", 17 # 10);
               ("RDNOISEA", 65535); ("RDNOISEB", 65535); ("RDNOISE", 52 # 10)].

Definition soundHeader : gmap string Q :=
  list_to_map [("SATURATE", 65535); ("GAINA", 162 # 100); ("GAINB", 17 # 10);
               ("RDNOISEA", 48 # 10); ("RDNOISEB", 49 # 10)].

(** A header that lacks RDNOISEA and RDNOISEB but has the fallback. *)
Definition partialHeader : gmap string Q :=
  list_to_map [("SATURATE", 65535); ("GAINA", 162 # 100); ("GAINB", 17 # 10);
               ("RDNOISE", 52 # 10)].

Definition negativeHeader : gmap string Q := {[ "SATURATE" := -1 ]}.

(** A header with the saturation level only. *)
Definition bareHeader : gmap string Q := {[ "SATURATE" := 65535 ]}.

(** The usual detector with other calibration scalars on record. *)
Definition staleCcd : Detector :=
  ccdOf [setGain 9 (ampNamed "A"); setReadNoise 7 (setSaturation 1 (ampNamed "B"))].

Definition start (ccd : Detector) (img : list (list Q)) (md : gmap string Q)
    : world :=
  {| ccdExposure := {| detector := ccd; image := img; metadata := md |};
     trace := [] |}.

(** A faint image, and one with a single pixel on the saturation rail. *)
Definition faintImage : list (list Q) := [[100; 250]; [1200; 90]].
Definition railImage : list (list Q) := [[60001]].

(** A pass-through pipeline that accepts every exposure. *)
Definition acceptAll (e : Exposure) (_ : unit) : option Exposure * Exposure :=
  (Some e, e).

(** ** More sample inputs *)

(** An image of two rows without pixels. *)
Definition emptyImage : list (list Q) := [[]; []].

(** The rail pixel among faint ones. *)
Definition mixedImage : list (list Q) := [[100; 60001]; [59999; 250]].

(** The legacy header with keys that [run] never asks for. *)
Definition busyHeader : gmap string Q :=
  <["EXPTIME" := 300]> (<["AIRMASS" := 12 # 10]> legacyHeader).

(** Detectors with three amplifiers, one name repeated, and with none. *)
Definition tripleCcd : Detector := ccdOf [ampNamed "B"; ampNamed "A"; ampNamed "A"].
Definition bareCcd : Detector := ccdOf [].

(** A pixel value at or above the lower end of the histogram range. *)
Definition bright (v : Q) : bool := Qle_bool 60000 v.

(** The keys that [run] may read. *)
Definition runKeys : list string := "SATURATE" :: amplifierKeys.

(** An action that writes the log. *)
Definition is_log (ev : event) : bool :=
  match ev with
  | LogInfo _ => true
  | _ => false
  end.

(** * Properties *)

(** ** Comparisons and truncation *)

Lemma Qgtb_true (x y : Q) : Qgtb x y = true ↔ y < x.
Proof.
  unfold Qgtb. rewrite negb_true_iff, <- not_true_iff_false, Qle_bool_iff.
  split; [apply Qnot_le_lt | apply Qlt_not_le].
Qed.

Lemma Qgtb_false (x y : Q) : Qgtb x y = false ↔ x <= y.
Proof. unfold Qgtb. rewrite negb_false_iff. apply Qle_bool_iff. Qed.

Lemma int_nonneg (x : Q) : 0 <= x → int x = Qfloor x.
Proof.
  destruct x as [n d]. unfold Qle, int, Qfloor. simpl. intros H.
  apply Z.quot_div_nonneg; lia.
Qed.

Lemma int_nonpos (x : Q) : x <= 0 → int x = (- Qfloor (- x))%Z.
Proof.
  destruct x as [n d]. unfold Qle, int, Qfloor, Qopp. simpl. intros H.
  rewrite <- (Z.opp_involutive n) at 1. rewrite Z.quot_opp_l by lia.
  f_equal. apply Z.quot_div_nonneg; lia.
Qed.

Lemma int_comp (x y : Q) : x == y → int x = int y.
Proof.
  intros E. destruct (Qlt_le_dec x 0) as [Hx | Hx].
  - rewrite !int_nonpos by (rewrite <- ?E; lra). now rewrite E.
  - rewrite !int_nonneg by (rewrite <- ?E; lra). now rewrite E.
Qed.

Lemma int_sign_nonneg (x : Q) : 0 <= x → (0 <= int x)%Z.
Proof.
  intros H. rewrite int_nonneg by exact H.
  change 0%Z with (Qfloor 0). now apply Qfloor_resp_le.
Qed.

Lemma int_sign_nonpos (x : Q) : x <= 0 → (int x <= 0)%Z.
Proof.
  intros H. rewrite int_nonpos by exact H.
  assert (0 <= Qfloor (- x))%Z; [| lia].
  change 0%Z with (Qfloor 0). apply Qfloor_resp_le. lra.
Qed.

(** ** The maximum *)

Lemma foldl_fmax_spec (t : list Q) (x : Q) :
  (foldl fmax x t = x ∨ foldl fmax x t ∈ t)
  ∧ x <= foldl fmax x t
  ∧ ∀ y, y ∈ t → y <= foldl fmax x t.
Proof.
  revert x. induction t as [| z t IH]; intros x; simpl.
  - split; [now left |]. split; [lra |]. intros y Hy. inversion Hy.
  - destruct (IH (fmax x z)) as (Hin & Hle & Hall).
    assert (Hm : x <= fmax x z ∧ z <= fmax x z
                 ∧ (fmax x z = x ∨ fmax x z = z)).
    { unfold fmax. destruct (Qgtb z x) eqn:E.
      - apply Qgtb_true in E. repeat split; try lra. now right.
      - apply Qgtb_false in E. repeat split; try lra. now left. }
    destruct Hm as (Hx & Hz & Hsel). repeat split.
    + destruct Hin as [Hin | Hin].
      * rewrite Hin. destruct Hsel as [-> | ->]; [now left |].
        right. apply list_elem_of_here.
      * right. now apply list_elem_of_further.
    + lra.
    + intros y Hy. apply elem_of_cons in Hy as [-> | Hy]; [lra | auto].
Qed.

(** [np_max] returns an element of the array that bounds every element. *)
Lemma np_max_spec (a : list Q) (m : Q) :
  np_max a = Ok m → m ∈ a ∧ ∀ y, y ∈ a → y <= m.
Proof.
  destruct a as [| x t]; simpl; [discriminate |]. intros [= <-].
  destruct (foldl_fmax_spec t x) as (Hin & Hle & Hall). split.
  - destruct Hin as [-> | Hin]; [apply list_elem_of_here |].
    now apply list_elem_of_further.
  - intros y Hy. apply elem_of_cons in Hy as [-> | Hy]; auto.
Qed.

Lemma np_max_nonempty (a : list Q) : a ≠ [] → ∃ m, np_max a = Ok m.
Proof. destruct a; [congruence |]. intros _. simpl. eauto. Qed.

(** ** The first largest entry *)

Lemma argmax_from_spec (l t pre : list nat) (bi : nat) :
  l = pre ++ t →
  (bi < length pre)%nat →
  (∀ j, (j < length pre)%nat → (nth j l 0 ≤ nth bi l 0)%nat) →
  (∀ j, (j < bi)%nat → (nth j l 0 < nth bi l 0)%nat) →
  let k := argmax_from t (length pre) bi (nth bi l 0%nat) in
  (k < length l)%nat
  ∧ (∀ j, (j < length l)%nat → (nth j l 0 ≤ nth k l 0)%nat)
  ∧ (∀ j, (j < k)%nat → (nth j l 0 < nth k l 0)%nat).
Proof.
  revert pre bi. induction t as [| x t IH]; intros pre bi -> Hbi Hle Hlt; simpl.
  - rewrite app_nil_r in *. auto.
  - assert (Hx : nth (length pre) (pre ++ x :: t) 0%nat = x).
    { rewrite app_nth2 by lia. now rewrite Nat.sub_diag. }
    assert (Hlen : length (pre ++ [x]) = S (length pre)).
    { rewrite length_app. simpl. lia. }
    destruct (Nat.ltb_spec (nth bi (pre ++ x :: t) 0%nat) x) as [Hnew | Hold].
    + specialize (IH (pre ++ [x]) (length pre)).
      rewrite Hlen, <- app_assoc in IH. simpl in IH. rewrite Hx in IH.
      apply IH; [reflexivity | lia | |].
      * intros j Hj. destruct (decide (j = length pre)) as [-> | Hne].
        -- rewrite Hx. lia.
        -- specialize (Hle j). lia.
      * intros j Hj. specialize (Hle j). lia.
    + specialize (IH (pre ++ [x]) bi).
      rewrite Hlen, <- app_assoc in IH. simpl in IH.
      apply IH; [reflexivity | lia | | exact Hlt].
      intros j Hj. destruct (decide (j = length pre)) as [-> | Hne].
      * rewrite Hx. lia.
      * apply Hle. lia.
Qed.

(** [np_argmax] succeeds on an array with elements, and its index holds an
    entry that no entry exceeds and no earlier entry reaches. *)
Lemma np_argmax_spec (l : list nat) :
  l ≠ [] →
  ∃ k, np_argmax l = Ok k
       ∧ (k < length l)%nat
       ∧ (∀ j, (j < length l)%nat → (nth j l 0 ≤ nth k l 0)%nat)
       ∧ (∀ j, (j < k)%nat → (nth j l 0 < nth k l 0)%nat).
Proof.
  destruct l as [| x t]; [congruence |]. intros _.
  exists (argmax_from t 1 0 x). split; [reflexivity |].
  apply (argmax_from_spec (x :: t) t [x] 0); simpl; try reflexivity; try lia.
  intros j Hj. assert (j = 0%nat) as -> by lia. simpl. lia.
Qed.

(** ** Rounding to binary64 *)

Lemma pow2_pos (e : Z) : 0 < pow2 e.
Proof. apply Qpower_0_lt. reflexivity. Qed.

Lemma pow2_add (a b : Z) : pow2 (a + b) == pow2 a * pow2 b.
Proof. apply Qpower_plus. discriminate. Qed.

Lemma pow2_le (a b : Z) : (a <= b)%Z -> pow2 a <= pow2 b.
Proof. intros H. apply Qpower_le_compat_l; [exact H | discriminate]. Qed.

Lemma pow2_lt (a b : Z) : (a < b)%Z -> pow2 a < pow2 b.
Proof. intros H. apply Qpower_lt_compat_l; [exact H | reflexivity]. Qed.

Lemma pow2_lt_inv (a b : Z) : pow2 a < pow2 b -> (a < b)%Z.
Proof. intros H. apply (Qpower_lt_compat_l_inv 2); [exact H | reflexivity]. Qed.

Lemma pow2_inject (n : Z) : (0 <= n)%Z -> pow2 n == inject_Z (2 ^ n).
Proof. intros H. unfold pow2. now rewrite Zpower_Qpower. Qed.

Lemma pow2_succ (a : Z) : pow2 (a + 1) == 2 * pow2 a.
Proof. rewrite pow2_add. change (pow2 1) with 2. ring. Qed.

(** The binade of a positive rational. *)
Lemma ilog2_spec (x : Q) :
  0 < x -> pow2 (ilog2 x) <= x /\ x < pow2 (ilog2 x + 1).
Proof.
  intros Hx. destruct x as [n d]. unfold ilog2. cbn [Qnum Qden].
  assert (Hn : (0 < n)%Z).
  { unfold Qlt in Hx. simpl in Hx. lia. }
  set (a := Z.log2 n). set (b := Z.log2 (Zpos d)).
  destruct (Z.log2_spec n Hn) as [Ha1 Ha2]. fold a in Ha1, Ha2.
  destruct (Z.log2_spec (Zpos d) ltac:(lia)) as [Hb1 Hb2]. fold b in Hb1, Hb2.
  assert (Ha0 : (0 <= a)%Z) by apply Z.log2_nonneg.
  assert (Hb0 : (0 <= b)%Z) by apply Z.log2_nonneg.
  assert (Hnd : n # d == inject_Z n / inject_Z (Zpos d)) by apply Qmake_Qdiv.
  assert (Hd : 0 < inject_Z (Zpos d)) by reflexivity.
  assert (HA1 : pow2 a <= inject_Z n).
  { rewrite pow2_inject by lia. now rewrite <- Zle_Qle. }
  assert (HA2 : inject_Z n < pow2 (a + 1)).
  { rewrite pow2_inject by lia. rewrite <- Zlt_Qlt.
    now replace (a + 1)%Z with (Z.succ a) by lia. }
  assert (HB1 : pow2 b <= inject_Z (Zpos d)).
  { rewrite pow2_inject by lia. now rewrite <- Zle_Qle. }
  assert (HB2 : inject_Z (Zpos d) < pow2 (b + 1)).
  { rewrite pow2_inject by lia. rewrite <- Zlt_Qlt.
    now replace (b + 1)%Z with (Z.succ b) by lia. }
  (* x * d = n, so pow2 (a - b - 1) < x < pow2 (a - b + 1) *)
  assert (Hx' : (n # d) * inject_Z (Zpos d) == inject_Z n).
  { rewrite Hnd. field. discriminate. }
  assert (Hlow : pow2 (a - b - 1) < n # d).
  { apply (Qmult_lt_r _ _ (inject_Z (Zpos d)) Hd). rewrite Hx'.
    apply Qlt_le_trans with (pow2 (a - b - 1) * pow2 (b + 1)).
    - apply Qmult_lt_l; [apply pow2_pos | exact HB2].
    - rewrite <- pow2_add. now replace (a - b - 1 + (b + 1))%Z with a by lia. }
  assert (Hhigh : n # d < pow2 (a - b + 1)).
  { apply (Qmult_lt_r _ _ (inject_Z (Zpos d)) Hd). rewrite Hx'.
    apply Qlt_le_trans with (pow2 (a - b + 1) * pow2 b).
    - rewrite <- pow2_add. now replace (a - b + 1 + b)%Z with (a + 1)%Z by lia.
    - apply Qmult_le_l; [apply pow2_pos | exact HB1]. }
  destruct (Qle_bool (pow2 (a - b)) (n # d)) eqn:E.
  - apply Qle_bool_iff in E. split; [exact E | exact Hhigh].
  - split.
    + now apply Qlt_le_weak.
    + replace (a - b - 1 + 1)%Z with (a - b)%Z by lia.
      apply Qnot_le_lt. intros H. apply Qle_bool_iff in H. congruence.
Qed.

Lemma ilog2_unique (x : Q) (k : Z) :
  pow2 k <= x -> x < pow2 (k + 1) -> ilog2 x = k.
Proof.
  intros H1 H2.
  assert (Hx : 0 < x) by (pose proof (pow2_pos k); lra).
  destruct (ilog2_spec x Hx) as [H3 H4].
  assert (ilog2 x < k + 1)%Z by (apply pow2_lt_inv; lra).
  assert (k < ilog2 x + 1)%Z by (apply pow2_lt_inv; lra).
  lia.
Qed.

Lemma ilog2_mono (x y : Q) : 0 < x -> x <= y -> (ilog2 x <= ilog2 y)%Z.
Proof.
  intros Hx Hxy.
  destruct (ilog2_spec x Hx) as [H1 _].
  destruct (ilog2_spec y ltac:(lra)) as [_ H2].
  assert (ilog2 x < ilog2 y + 1)%Z by (apply pow2_lt_inv; lra). lia.
Qed.

Lemma ilog2_comp (x y : Q) : 0 < x -> x == y -> ilog2 x = ilog2 y.
Proof.
  intros Hx E. destruct (ilog2_spec x Hx) as [H1 H2].
  symmetry. apply ilog2_unique; rewrite <- E; assumption.
Qed.

(** Rounding to the nearest integer, ties to even. *)
Lemma rne_bounds (x : Q) :
  (Qfloor x <= rne x <= Qfloor x + 1)%Z.
Proof.
  unfold rne. destruct (Qcompare _ _); [destruct (Z.even _) | |]; lia.
Qed.

Lemma rne_Z (z : Z) : rne (inject_Z z) = z.
Proof.
  unfold rne. rewrite Qfloor_Z.
  assert (E : inject_Z z - inject_Z z == 0) by ring.
  assert (Qcompare (inject_Z z - inject_Z z) (1 # 2) = Lt) as ->.
  { apply Qlt_alt. rewrite E. reflexivity. }
  reflexivity.
Qed.

Lemma rne_comp (x y : Q) : x == y -> rne x = rne y.
Proof.
  intros E. unfold rne. rewrite (Qfloor_comp x y E).
  assert (Qcompare (x - inject_Z (Qfloor y)) (1 # 2)
          = Qcompare (y - inject_Z (Qfloor y)) (1 # 2)) as ->.
  { now rewrite E. }
  reflexivity.
Qed.

Lemma rne_mono (x y : Q) : x <= y -> (rne x <= rne y)%Z.
Proof.
  intros Hxy.
  pose proof (Qfloor_resp_le x y Hxy) as Hf.
  pose proof (rne_bounds x) as Hx. pose proof (rne_bounds y) as Hy.
  destruct (Z.eq_dec (Qfloor x) (Qfloor y)) as [E | N]; [| lia].
  unfold rne. rewrite E.
  destruct (Qcompare_spec (x - inject_Z (Qfloor y)) (1 # 2)) as [Hx1 | Hx1 | Hx1];
    destruct (Qcompare_spec (y - inject_Z (Qfloor y)) (1 # 2)) as [Hy1 | Hy1 | Hy1];
    try destruct (Z.even (Qfloor y)); try lia; exfalso; lra.
Qed.

Lemma rne_nonneg (x : Q) : 0 <= x -> (0 <= rne x)%Z.
Proof.
  intros H. change 0%Z with (rne (inject_Z 0)) at 1. rewrite rne_Z.
  rewrite <- (rne_Z 0). now apply rne_mono.
Qed.

Lemma ulp_exponent_mono (x y : Q) :
  0 < x -> x <= y -> (ulp_exponent x <= ulp_exponent y)%Z.
Proof.
  intros Hx Hxy. unfold ulp_exponent.
  pose proof (ilog2_mono x y Hx Hxy). lia.
Qed.

Lemma round_pos_value (x : Q) :
  round_pos x
  == inject_Z (rne (x / pow2 (ulp_exponent x))) * pow2 (ulp_exponent x).
Proof. unfold round_pos. apply Qred_correct. Qed.

Lemma round_pos_comp (x y : Q) : 0 < x -> x == y -> round_pos x = round_pos y.
Proof.
  intros Hx E. unfold round_pos, ulp_exponent.
  rewrite (ilog2_comp x y Hx E). apply Qred_complete.
  rewrite (rne_comp (x / pow2 (Z.max (-1074) (ilog2 y - 52)))
                    (y / pow2 (Z.max (-1074) (ilog2 y - 52)))); [reflexivity |].
  now rewrite E.
Qed.

Lemma round_pos_nonneg (x : Q) : 0 < x -> 0 <= round_pos x.
Proof.
  intros Hx. rewrite round_pos_value.
  pose proof (pow2_pos (ulp_exponent x)) as Hp.
  apply Qmult_le_0_compat; [| lra].
  change 0 with (inject_Z 0). rewrite <- Zle_Qle. apply rne_nonneg.
  apply Qle_shift_div_l; [exact Hp | lra].
Qed.

Lemma round_pos_mono (x y : Q) : 0 < x -> x <= y -> round_pos x <= round_pos y.
Proof.
  intros Hx Hxy. rewrite !round_pos_value.
  pose proof (ulp_exponent_mono x y Hx Hxy) as He.
  set (ex := ulp_exponent x) in *. set (ey := ulp_exponent y) in *.
  pose proof (pow2_pos ex) as Hpx. pose proof (pow2_pos ey) as Hpy.
  destruct (Z.eq_dec ex ey) as [E | N].
  - rewrite <- E. apply Qmult_le_compat_r; [| lra].
    rewrite <- Zle_Qle. apply rne_mono.
    apply Qmult_le_compat_r; [exact Hxy |].
    apply Qlt_le_weak, Qinv_lt_0_compat, Hpx.
  - assert (Hlt : (ex < ey)%Z) by lia.
    assert (Hey : ey = (ilog2 y - 52)%Z) by (unfold ey, ulp_exponent in *; lia).
    assert (Hex : (ilog2 x - 52 <= ex)%Z) by (unfold ex, ulp_exponent; lia).
    destruct (ilog2_spec x Hx) as [_ Hxu].
    destruct (ilog2_spec y ltac:(lra)) as [Hyl _].
    apply Qle_trans with (pow2 (ey + 52)).
    + (* the low side stays below the next binade *)
      apply Qle_trans with (inject_Z (2 ^ 53) * pow2 ex).
      * apply Qmult_le_compat_r; [| lra].
        rewrite <- Zle_Qle. rewrite <- (rne_Z (2 ^ 53)). apply rne_mono.
        apply Qle_shift_div_r; [exact Hpx |].
        rewrite <- pow2_inject by lia. rewrite <- pow2_add.
        apply Qle_trans with (pow2 (ilog2 x + 1)); [lra |].
        apply pow2_le. lia.
      * rewrite <- pow2_inject by lia. rewrite <- pow2_add.
        apply pow2_le. lia.
    + apply Qle_trans with (inject_Z (2 ^ 52) * pow2 ey).
      * rewrite <- pow2_inject by lia. rewrite <- pow2_add.
        apply pow2_le. lia.
      * apply Qmult_le_compat_r; [| lra].
        rewrite <- Zle_Qle. rewrite <- (rne_Z (2 ^ 52)). apply rne_mono.
        apply Qle_shift_div_l; [exact Hpy |].
        rewrite <- pow2_inject by lia. rewrite <- pow2_add.
        rewrite Hey. replace (52 + (ilog2 y - 52))%Z with (ilog2 y) by lia.
        exact Hyl.
Qed.

Lemma round_comp (x y : Q) : x == y -> round x = round y.
Proof.
  intros E. unfold round.
  assert (Qcompare x 0 = Qcompare y 0) as -> by (now rewrite E).
  destruct (Qcompare_spec y 0) as [H | H | H]; [reflexivity | |].
  - rewrite (round_pos_comp (- x) (- y)); [reflexivity | lra | now rewrite E].
  - rewrite (round_pos_comp x y); [reflexivity | lra | exact E].
Qed.

Lemma round_0 : round 0 = Fin 0.
Proof. reflexivity. Qed.

Lemma round_mono (x y : Q) : x <= y -> b64_le (round x) (round y).
Proof.
  intros Hxy. unfold round.
  destruct (Qcompare_spec x 0) as [Hx | Hx | Hx];
    destruct (Qcompare_spec y 0) as [Hy | Hy | Hy]; try (exfalso; lra).
  - simpl. lra.
  - pose proof (round_pos_nonneg y Hy).
    destruct (Qle_bool (round_pos y) b64_max); simpl; [lra | exact I].
  - pose proof (round_pos_nonneg (- x) ltac:(lra)).
    destruct (Qle_bool (round_pos (- x)) b64_max); simpl; [lra | exact I].
  - pose proof (round_pos_mono (- y) (- x) ltac:(lra) ltac:(lra)) as Hm.
    destruct (Qle_bool (round_pos (- x)) b64_max) eqn:Ex;
      destruct (Qle_bool (round_pos (- y)) b64_max) eqn:Ey; simpl; try exact I.
    + lra.
    + apply Qle_bool_iff in Ex.
      assert (Qle_bool (round_pos (- y)) b64_max = true)
        by (apply Qle_bool_iff; lra). congruence.
  - pose proof (round_pos_nonneg (- x) ltac:(lra)).
    pose proof (round_pos_nonneg y Hy).
    destruct (Qle_bool (round_pos (- x)) b64_max);
      destruct (Qle_bool (round_pos y) b64_max); simpl; try exact I. lra.
  - pose proof (round_pos_mono x y Hx Hxy) as Hm.
    destruct (Qle_bool (round_pos x) b64_max) eqn:Ex;
      destruct (Qle_bool (round_pos y) b64_max) eqn:Ey; simpl; try exact I.
    + lra.
    + apply Qle_bool_iff in Ey.
      assert (Qle_bool (round_pos x) b64_max = true)
        by (apply Qle_bool_iff; lra). congruence.
Qed.

Lemma round_not_nan (x : Q) : round x <> NaN.
Proof.
  unfold round. destruct (Qcompare x 0); [discriminate | |];
    destruct (Qle_bool _ _); discriminate.
Qed.

Lemma b64_max_pos : 0 < b64_max.
Proof. reflexivity. Qed.

Lemma round_fin_bound (x v : Q) :
  round x = Fin v -> - b64_max <= v /\ v <= b64_max.
Proof.
  unfold round. pose proof b64_max_pos.
  destruct (Qcompare_spec x 0) as [Hx | Hx | Hx].
  - intros [= <-]. lra.
  - pose proof (round_pos_nonneg (- x) ltac:(lra)).
    destruct (Qle_bool _ _) eqn:E; [| discriminate].
    intros [= <-]. apply Qle_bool_iff in E. lra.
  - pose proof (round_pos_nonneg x Hx).
    destruct (Qle_bool _ _) eqn:E; [| discriminate].
    intros [= <-]. apply Qle_bool_iff in E. lra.
Qed.

(** Rounding keeps a value between two values whose roundings are finite. *)
Lemma round_between (a b x va vb : Q) :
  round a = Fin va -> round b = Fin vb -> a <= x -> x <= b ->
  exists v, round x = Fin v /\ va <= v /\ v <= vb.
Proof.
  intros Ha Hb Hax Hxb.
  pose proof (round_mono a x Hax) as H1. pose proof (round_mono x b Hxb) as H2.
  rewrite Ha in H1. rewrite Hb in H2.
  destruct (round x) as [v | [] |] eqn:E; simpl in *; try contradiction.
  exists v. auto.
Qed.

Lemma round_b64_max : ∃ v, round b64_max = Fin v ∧ v == b64_max.
Proof. eexists. split; vm_compute; reflexivity. Qed.

(** A non-negative number within the range rounds to one. *)
Lemma round_finite (x : Q) :
  0 <= x → x <= b64_max → ∃ v, round x = Fin v ∧ 0 <= v ∧ v <= b64_max.
Proof.
  intros H0 Hmax. destruct round_b64_max as (vb & Hb & Eb).
  destruct (round_between 0 b64_max x 0 vb round_0 Hb H0 Hmax) as (v & Hv & ? & ?).
  exists v. repeat split; [exact Hv | assumption | lra].
Qed.

(** ** Agreement with the machine's binary64 numbers

    The literals of the source and the operations of the embedding,
    compared with the primitive floats on the numbers of the examples
    below. *)

Example literal_agrees :
  of_float 0x1.e666666666666p-1 = Fin (safe defaultConfig)
  ∧ of_float 0x1.e147ae147ae14p-1 = Fin (literal (94 # 100))
  ∧ of_float 0x1.5555555555555p-2 = Fin (literal (1 # 3))
  ∧ of_float 0x1.1ccf385ebc8a0p+1023 = Fin (literal (10 ^ 308)).
Proof. repeat split; vm_compute; reflexivity. Qed.

Example operations_agree :
  of_float (60001 + 1)%float = b64_add (Fin 60001) (Fin 1)
  ∧ of_float (60002 - 60000)%float = b64_sub (Fin 60002) (Fin 60000)
  ∧ of_float (2 / 100)%float = b64_div (Fin 2) (Fin 100)
  ∧ of_float (0x1.e666666666666p-1 * 60001)%float
    = b64_mul (Fin (safe defaultConfig)) (Fin 60001)
  ∧ of_float (0x1.e147ae147ae14p-1 * 68300)%float
    = b64_mul (Fin (literal (94 # 100))) (Fin 68300)
  ∧ of_float (0x1.5555555555555p-2 * 60009)%float
    = b64_mul (Fin (literal (1 # 3))) (Fin 60009)
  ∧ of_float (0x1.1ccf385ebc8a0p+1023 * 60001)%float
    = b64_mul (Fin (literal (10 ^ 308))) (Fin 60001).
Proof. repeat split; vm_compute; reflexivity. Qed.


(** ** The edges of [np_linspace] *)

Lemma np_linspace_length (start stop : b64) (n : nat) :
  length (np_linspace start stop (n + 1)) = (n + 1)%nat.
Proof.
  unfold np_linspace. replace (n + 1 - 1)%nat with n by lia.
  assert (Hlen : ∀ (f g : b64 → b64),
             length (f <$> (g <$> (of_nat <$> seq 0 (n + 1)))) = (n + 1)%nat).
  { intros f g. now rewrite !length_fmap, length_seq. }
  destruct (Nat.ltb_spec 1 (n + 1)) as [H1 | H1].
  - destruct (Nat.ltb 0 n); [destruct (b64_eqb _ _) |];
      rewrite length_app, length_take, Hlen; simpl; lia.
  - assert (n = 0%nat) as -> by lia. reflexivity.
Qed.

Lemma np_linspace_inner (start stop step : b64) (n i : nat) :
  (0 < n)%nat →
  b64_div (b64_sub stop start) (of_nat n) = step →
  b64_eqb step (Fin 0) = false →
  (i < n)%nat →
  np_linspace start stop (n + 1) !! i
  = Some (b64_add (b64_mul (of_nat i) step) start).
Proof.
  intros Hn Hstep Hzero Hi. unfold np_linspace.
  replace (n + 1 - 1)%nat with n by lia.
  assert (Nat.ltb 0 n = true) as -> by (apply Nat.ltb_lt; lia).
  assert (Nat.ltb 1 (n + 1) = true) as -> by (apply Nat.ltb_lt; lia).
  rewrite Hstep, Hzero.
  rewrite lookup_app_l
    by (rewrite length_take, !length_fmap, length_seq; lia).
  rewrite lookup_take_lt by exact Hi.
  rewrite !list_lookup_fmap, lookup_seq_lt by lia. reflexivity.
Qed.

Lemma np_linspace_last (start stop : b64) (n : nat) :
  (0 < n)%nat → np_linspace start stop (n + 1) !! n = Some stop.
Proof.
  intros Hn. unfold np_linspace.
  assert (Nat.ltb 1 (n + 1) = true) as -> by (apply Nat.ltb_lt; lia).
  replace (n + 1 - 1)%nat with n by lia.
  assert (Hlen : ∀ l : list b64, length l = (n + 1)%nat → length (take n l) = n).
  { intros l Hl. rewrite length_take. lia. }
  destruct (Nat.ltb 0 n); [destruct (b64_eqb _ _) |];
    (rewrite lookup_app_r; rewrite Hlen
       by (now rewrite !length_fmap, length_seq));
    [| lia | | lia | | lia]; now rewrite Nat.sub_diag.
Qed.

(** ** The histogram of [run]: the range from 60000 to a finite float *)

(** Concrete roundings that bound the step and the edges. *)
Lemma edge_budget :
  ∃ smin smax pmax,
    round (1 / 100) = Fin smin ∧ 0 < smin
    ∧ round (b64_max / 100) = Fin smax
    ∧ round (99 * smax) = Fin pmax
    ∧ pmax + 60000 <= b64_max.
Proof.
  eexists _, _, _.
  split; [vm_compute; reflexivity |]. split; [reflexivity |].
  split; [vm_compute; reflexivity |]. split; [vm_compute; reflexivity |].
  vm_compute. discriminate.
Qed.

Lemma round_exact_60000 : round 60000 = Fin 60000.
Proof. reflexivity. Qed.

Lemma round_exact_60001 : round 60001 = Fin 60001.
Proof. reflexivity. Qed.

Lemma round_exact_1 : round 1 = Fin 1.
Proof. reflexivity. Qed.

Lemma round_exact_100 : round 100 = Fin 100.
Proof. reflexivity. Qed.

Section HistogramPath.

(** The last edge and the hypotheses [run] guarantees for it. *)
Variable h : Q.
Hypothesis h_low : 60001 <= h.
Hypothesis h_high : h <= b64_max.

Lemma path_outer_edges : outer_edges (Fin 60000, Fin h) = Ok (Fin 60000, Fin h).
Proof.
  unfold outer_edges, b64_ltb, b64_eqb, b64_leb, is_finite.
  assert (Qle_bool 60000 h = true) as -> by (apply Qle_bool_iff; lra).
  destruct (Qle_bool h 60000) eqn:E; [| reflexivity].
  apply Qle_bool_iff in E. lra.
Qed.

Lemma path_delta :
  ∃ d, b64_sub (Fin h) (Fin 60000) = Fin d ∧ 1 <= d ∧ d <= b64_max.
Proof.
  destruct round_b64_max as (vb & Hb & Eb).
  destruct (round_between 1 b64_max (h + - 60000) 1 vb round_exact_1 Hb)
    as (d & Hd & H1 & H2); [lra | lra |].
  exists d. repeat split; [exact Hd | exact H1 | lra].
Qed.

Lemma path_step (d : Q) :
  1 <= d → d <= b64_max →
  ∃ s smax pmax,
    b64_div (Fin d) (of_nat 100) = Fin s ∧ 0 < s ∧ s <= smax
    ∧ round (99 * smax) = Fin pmax ∧ pmax + 60000 <= b64_max.
Proof.
  intros H1 H2.
  destruct edge_budget as (smin & smax & pmax & Hmin & Hpos & Hmax & Hp & Hb).
  unfold b64_div, of_nat.
  change (Qeq_bool (inject_Z (Z.of_nat 100)) 0) with false. cbv iota.
  change (inject_Z (Z.of_nat 100)) with 100.
  destruct (round_between (1 / 100) (b64_max / 100) (d / 100) smin smax Hmin Hmax)
    as (s & Hs & Hs1 & Hs2);
    [apply Qmult_le_compat_r; [exact H1 | discriminate]
    | apply Qmult_le_compat_r; [exact H2 | discriminate] |].
  exists s, smax, pmax. repeat split; try assumption. lra.
Qed.

(** Every edge is a finite number from 60000 on; the first one is 60000
    and the last one is [h]. *)
Lemma path_edges :
  let bin_edges := np_linspace (Fin 60000) (Fin h) (100 + 1) in
  length bin_edges = 101%nat
  ∧ bin_edges !! 0%nat = Some (Fin 60000)
  ∧ bin_edges !! 100%nat = Some (Fin h)
  ∧ ∀ i, (i ≤ 100)%nat →
         ∃ L, bin_edges !! i = Some (Fin L) ∧ 60000 <= L ∧ L <= b64_max.
Proof.
  intros bin_edges.
  destruct path_delta as (d & Hd & Hd1 & Hd2).
  destruct (path_step d Hd1 Hd2) as (s & smax & pmax & Hs & Hs0 & Hs1 & Hp & Hb).
  assert (Hstep : b64_div (b64_sub (Fin h) (Fin 60000)) (of_nat 100) = Fin s)
    by (now rewrite Hd).
  assert (Hzero : b64_eqb (Fin s) (Fin 0) = false).
  { unfold b64_eqb, b64_leb. destruct (Qle_bool s 0) eqn:E.
    - apply Qle_bool_iff in E. lra.
    - apply andb_false_l. }
  assert (Hinner : ∀ i, (i < 100)%nat →
            bin_edges !! i
            = Some (b64_add (b64_mul (of_nat i) (Fin s)) (Fin 60000))).
  { intros i Hi. unfold bin_edges.
    apply np_linspace_inner; [lia | exact Hstep | exact Hzero | exact Hi]. }
  assert (Hlast : bin_edges !! 100%nat = Some (Fin h))
    by (apply np_linspace_last; lia).
  split; [apply (np_linspace_length _ _ 100) |].
  split; [| split; [exact Hlast |]].
  - rewrite Hinner by lia. unfold of_nat, b64_mul, b64_add.
    rewrite (round_comp (inject_Z (Z.of_nat 0) * s) 0) by (simpl; ring).
    rewrite round_0. now rewrite (round_comp (0 + 60000) 60000) by ring.
  - intros i Hi. destruct (decide (i = 100%nat)) as [-> | Hne].
    { exists h. split; [exact Hlast |]. split; lra. }
    rewrite Hinner by lia. unfold of_nat, b64_mul, b64_add.
    assert (Hi0 : 0 <= inject_Z (Z.of_nat i)).
    { change 0 with (inject_Z 0). rewrite <- Zle_Qle. lia. }
    assert (Hi99 : inject_Z (Z.of_nat i) <= 99).
    { change 99 with (inject_Z 99). rewrite <- Zle_Qle. lia. }
    destruct (round_between 0 (99 * smax) (inject_Z (Z.of_nat i) * s) 0 pmax
                round_0 Hp) as (p & Hp' & Hp0 & Hp1).
    { apply Qmult_le_0_compat; lra. }
    { apply Qle_trans with (99 * s).
      - apply Qmult_le_compat_r; lra.
      - apply Qmult_le_l; [reflexivity | exact Hs1]. }
    rewrite Hp'.
    destruct round_b64_max as (vb & Hvb & Evb).
    destruct (round_between 60000 b64_max (p + 60000) 60000 vb
                round_exact_60000 Hvb) as (L & HL & HL0 & HL1); [lra | lra |].
    exists L. rewrite HL. repeat split; [exact HL0 | lra].
Qed.

End HistogramPath.

Lemma item_at_nonneg (a : list b64) (i : Z) (e : b64) :
  (0 <= i)%Z → a !! Z.to_nat i = Some e → item_at a i = Ok e.
Proof.
  intros Hi He. unfold item_at.
  assert (Z.ltb i 0 = false) as -> by (apply Z.ltb_ge; lia).
  assert (Z.ltb i 0 = false) as -> by (apply Z.ltb_ge; lia).
  now rewrite He.
Qed.

Lemma int_le_Z (x : Q) (z : Z) : 0 <= x → x <= inject_Z z → (int x <= z)%Z.
Proof.
  intros H0 Hz. rewrite int_nonneg by exact H0.
  rewrite <- (Qfloor_Z z). now apply Qfloor_resp_le.
Qed.

(** The bin index of a kept value exists and lies between 0 and 99. *)
Lemma path_bin_index (h d v : Q) :
  60001 <= h → h <= b64_max →
  b64_sub (Fin h) (Fin 60000) = Fin d → 1 <= d →
  60000 <= v → v <= h →
  ∃ i, bin_index (Fin 60000) (Fin d) 100
         (np_linspace (Fin 60000) (Fin h) (100 + 1)) v = Ok i
       ∧ (0 <= i <= 99)%Z.
Proof.
  intros Hh1 Hh2 Hd Hd1 Hv1 Hv2.
  destruct (path_edges h Hh1 Hh2) as (_ & Hfirst & _ & Hedges).
  set (bin_edges := np_linspace (Fin 60000) (Fin h) (100 + 1)) in *.
  unfold bin_index.
  (* the scaled position is a float between 0 and 100 *)
  assert (Ha : ∃ a, b64_sub (Fin v) (Fin 60000) = Fin a ∧ 0 <= a ∧ a <= d).
  { unfold b64_sub, b64_opp, b64_add in *.
    destruct (round_between 0 (h + - 60000) (v + - 60000) 0 d round_0 Hd)
      as (a & ? & ? & ?); [lra | lra |]. eauto. }
  destruct Ha as (a & -> & Ha0 & Ha1).
  assert (Hq : ∃ q, b64_div (Fin a) (Fin d) = Fin q ∧ 0 <= q ∧ q <= 1).
  { unfold b64_div.
    assert (Qeq_bool d 0 = false) as ->.
    { destruct (Qeq_bool d 0) eqn:E; [| reflexivity].
      apply Qeq_bool_iff in E. lra. }
    destruct (round_between 0 1 (a / d) 0 1 round_0 round_exact_1)
      as (q & ? & ? & ?); [| | eauto].
    - apply Qle_shift_div_l; lra.
    - apply Qle_shift_div_r; lra. }
  destruct Hq as (q & -> & Hq0 & Hq1).
  assert (Hf : ∃ f, b64_mul (Fin q) (of_nat 100) = Fin f ∧ 0 <= f ∧ f <= 100).
  { unfold b64_mul, of_nat. change (inject_Z (Z.of_nat 100)) with 100.
    destruct (round_between 0 100 (q * 100) 0 100 round_0 round_exact_100)
      as (f & ? & ? & ?); [lra | lra | eauto]. }
  destruct Hf as (f & -> & Hf0 & Hf1).
  pose proof (int_sign_nonneg f Hf0) as Hi0.
  pose proof (int_le_Z f 100 Hf0 Hf1) as Hi1.
  unfold astype_intp.
  assert (Z.leb (- 2 ^ 63) (int f) && Z.ltb (int f) (2 ^ 63) = true) as ->.
  { apply andb_true_iff. split; [apply Z.leb_le | apply Z.ltb_lt]; lia. }
  change (Z.of_nat 100) with 100%Z.
  set (i1 := if Z.eqb (int f) 100 then (int f - 1)%Z else int f).
  assert (Hi1' : (0 <= i1 <= 99)%Z).
  { unfold i1. destruct (Z.eqb_spec (int f) 100); lia. }
  destruct (Hedges (Z.to_nat i1) ltac:(lia)) as (L & HL & HL0 & _).
  rewrite (item_at_nonneg bin_edges i1 (Fin L)) by (lia || exact HL).
  set (i2 := if b64_ltb (Fin v) (Fin L) then (i1 - 1)%Z else i1).
  assert (Hi2 : (0 <= i2 <= 99)%Z).
  { unfold i2. destruct (b64_ltb (Fin v) (Fin L)) eqn:E; [| lia].
    destruct (Z.eq_dec i1 0%Z) as [E0 | N0]; [| lia].
    exfalso. rewrite E0 in HL. change (Z.to_nat 0%Z) with 0%nat in HL.
    rewrite Hfirst in HL. injection HL as <-.
    unfold b64_ltb, b64_leb in E. apply negb_true_iff in E.
    assert (Qle_bool 60000 v = true) by (apply Qle_bool_iff; lra).
    congruence. }
  destruct (Hedges (Z.to_nat (i2 + 1)) ltac:(lia)) as (L' & HL' & _).
  rewrite (item_at_nonneg bin_edges (i2 + 1) (Fin L')) by (lia || exact HL').
  eexists. split; [reflexivity |].
  destruct (Z.eqb_spec i2 (100 - 1)) as [E99 | N99].
  - rewrite andb_false_r. lia.
  - destruct (_ && _); lia.
Qed.

(** ** Counting *)

Lemma mapR_list_ok {A B} (f : A → result B) (P : B → Prop) (l : list A) :
  (∀ x, x ∈ l → ∃ y, f x = Ok y ∧ P y) →
  ∃ r, mapR_list f l = Ok r ∧ Forall P r ∧ length r = length l.
Proof.
  induction l as [| x t IH]; intros H; simpl.
  - exists []. repeat split. constructor.
  - destruct (H x ltac:(apply list_elem_of_here)) as (y & -> & Hy).
    destruct IH as (r & -> & Hr & Hlen).
    { intros z Hz. apply H. now apply list_elem_of_further. }
    exists (y :: r). repeat split; [now constructor | simpl; lia].
Qed.

Lemma np_bincount_ok (x : list Z) (n : nat) :
  (0 < n)%nat →
  Forall (λ i, (0 <= i <= Z.of_nat n - 1)%Z) x →
  ∃ counts, np_bincount x n = Ok counts ∧ length counts = n.
Proof.
  intros Hn Hx. unfold np_bincount.
  assert (forallb (λ i, Z.leb 0 i) x = true) as ->.
  { apply forallb_forall. intros i Hi. apply Z.leb_le.
    rewrite Forall_forall in Hx. apply list_elem_of_In in Hi.
    specialize (Hx i Hi). lia. }
  eexists. split; [reflexivity |].
  rewrite length_map, length_seq.
  destruct x as [| i x]; [reflexivity |].
  assert (list_max (map Z.to_nat (i :: x)) ≤ n - 1)%nat; [| lia].
  apply list_max_le. apply Forall_forall. intros k Hk.
  apply list_elem_of_In, in_map_iff in Hk as (z & <- & Hz).
  rewrite Forall_forall in Hx. apply list_elem_of_In in Hz.
  specialize (Hx z Hz). lia.
Qed.

(** ** The histogram call of [run] *)

Lemma round_max_plus_1 : ∃ v, round (b64_max + 1) = Fin v ∧ v == b64_max.
Proof. eexists. split; vm_compute; reflexivity. Qed.

(** The range is finite exactly when the largest pixel value is within
    the binary64 numbers. *)
Lemma histogramRange_cases (m : Q) :
  60000 < m →
  (∃ h, histogramRange m = (Fin 60000, Fin h) ∧ 60001 <= h ∧ h <= b64_max)
  ∨ (histogramRange m = (Fin 60000, Inf false) ∧ b64_max < m).
Proof.
  intros Hm. unfold histogramRange, b64_add.
  pose proof (round_mono 60001 (m + 1) ltac:(lra)) as Hlow.
  rewrite round_exact_60001 in Hlow.
  destruct (round (m + 1)) as [h | [] |] eqn:E; simpl in Hlow;
    try contradiction.
  - left. exists h. repeat split; [exact Hlow |].
    now apply round_fin_bound in E as [_ ?].
  - right. split; [reflexivity |]. apply Qnot_le_lt. intros Hle.
    destruct round_max_plus_1 as (vb & Hb & _).
    pose proof (round_mono (m + 1) (b64_max + 1) ltac:(lra)) as Hup.
    rewrite E, Hb in Hup. exact Hup.
Qed.

Lemma np_histogram_infinite (a : list Q) :
  np_histogram a 100 (Fin 60000, Inf false) = Err HistogramRange.
Proof. reflexivity. Qed.

(** On a finite range the call succeeds with 100 counts and the edges of
    [np_linspace]. *)
Lemma path_histogram (a : list Q) (h : Q) :
  60001 <= h → h <= b64_max →
  ∃ hist, np_histogram a 100 (Fin 60000, Fin h)
          = Ok (hist, np_linspace (Fin 60000) (Fin h) (100 + 1))
          ∧ length hist = 100%nat.
Proof.
  intros Hh1 Hh2. unfold np_histogram.
  rewrite (path_outer_edges h Hh1).
  destruct (path_delta h Hh1 Hh2) as (d & Hd & Hd1 & _). rewrite Hd.
  set (keep := filter _ a).
  destruct (mapR_list_ok
              (bin_index (Fin 60000) (Fin d) 100
                 (np_linspace (Fin 60000) (Fin h) (100 + 1)))
              (λ i, (0 <= i <= Z.of_nat 100 - 1)%Z) keep)
    as (indices & -> & Hind & _).
  { intros v Hv. apply list_elem_of_filter in Hv as [Hv _].
    apply Is_true_true, andb_true_iff in Hv. unfold b64_leb in Hv.
    rewrite !Qle_bool_iff in Hv. destruct Hv as [Hv1 Hv2].
    destruct (path_bin_index h d v Hh1 Hh2 Hd Hd1 Hv1 Hv2) as (i & Hi & Hb).
    exists i. split; [exact Hi |]. simpl. lia. }
  destruct (np_bincount_ok indices 100 ltac:(lia) Hind) as (counts & -> & Hlen).
  rewrite Hlen, Nat.eqb_refl. eauto.
Qed.

Lemma first_max_argmax (hist : list nat) :
  hist ≠ [] → ∃ k, np_argmax hist = Ok k ∧ first_max hist k.
Proof.
  intros Hne. destruct (np_argmax_spec hist Hne) as (k & Hk & H).
  exists k. split; [exact Hk | exact H].
Qed.

(** The peak edge for a largest pixel value within the binary64 numbers. *)
Lemma peakEdge_finite (a : list Q) (m : Q) :
  60000 < m → m <= b64_max →
  ∃ hist bin_edges k L,
    np_histogram a 100 (histogramRange m) = Ok (hist, bin_edges)
    ∧ length hist = 100%nat ∧ length bin_edges = 101%nat
    ∧ first_max hist k
    ∧ bin_edges !! k = Some (Fin L)
    ∧ 60000 <= L ∧ L <= b64_max
    ∧ peakEdge a m = Ok (Fin L).
Proof.
  intros Hm Hmax.
  destruct (histogramRange_cases m Hm) as [(h & Hr & Hh1 & Hh2) | [_ Hbig]];
    [| exfalso; lra].
  destruct (path_histogram a h Hh1 Hh2) as (hist & Hhist & Hlen).
  destruct (path_edges h Hh1 Hh2) as (Hlen' & _ & _ & Hedges).
  destruct (first_max_argmax hist) as (k & Hk & Hfirst).
  { intros ->. discriminate. }
  destruct (Hedges k) as (L & HL & HL0 & HL1).
  { destruct Hfirst as [Hlt _]. lia. }
  exists hist, (np_linspace (Fin 60000) (Fin h) (100 + 1)), k, L.
  unfold peakEdge. rewrite Hr, Hhist. cbn [bindR]. rewrite Hk. cbn [bindR].
  unfold item. rewrite HL.
  split; [reflexivity |]. split; [exact Hlen |]. split; [exact Hlen' |].
  split; [exact Hfirst |]. auto.
Qed.

Lemma peakEdge_cases (a : list Q) (m : Q) :
  60000 < m →
  (peakEdge a m = Err HistogramRange ∧ b64_max < m)
  ∨ (∃ L, peakEdge a m = Ok (Fin L) ∧ 60000 <= L ∧ L <= b64_max).
Proof.
  intros Hm. destruct (Qlt_le_dec b64_max m) as [Hbig | Hsmall].
  - destruct (histogramRange_cases m Hm) as [(h & Hr & Hh1 & Hh2) | [Hr _]].
    + right. destruct (path_histogram a h Hh1 Hh2) as (hist & Hhist & Hlen).
      destruct (path_edges h Hh1 Hh2) as (_ & _ & _ & Hedges).
      destruct (first_max_argmax hist) as (k & Hk & Hfirst).
      { intros ->. discriminate. }
      destruct (Hedges k) as (L & HL & HL0 & HL1).
      { destruct Hfirst as [Hlt _]. lia. }
      exists L. unfold peakEdge. rewrite Hr, Hhist. cbn [bindR].
      rewrite Hk. cbn [bindR]. unfold item. rewrite HL. auto.
    + left. unfold peakEdge. rewrite Hr, np_histogram_infinite. auto.
  - right.
    destruct (peakEdge_finite a m Hm Hsmall)
      as (_ & _ & _ & L & _ & _ & _ & _ & _ & HL0 & HL1 & Hp). eauto.
Qed.

(** ** The level from the peak edge *)

(** The product with a [safe] between 0 and 1 is finite and not negative,
    so that [int] is the floor. *)
Lemma level_fraction (safe L : Q) :
  0 <= safe → safe <= 1 → 0 <= L → L <= b64_max →
  ∃ p, b64_mul (Fin safe) (Fin L) = Fin p ∧ 0 <= p ∧ int p = Qfloor p.
Proof.
  intros Hs0 Hs1 HL0 HL1. unfold b64_mul.
  destruct (round_finite (safe * L)) as (p & Hp & Hp0 & _).
  - apply Qmult_le_0_compat; assumption.
  - assert (0 <= (1 - safe) * L) by (apply Qmult_le_0_compat; lra). lra.
  - exists p. split; [exact Hp |]. split; [exact Hp0 | now apply int_nonneg].
Qed.

(** For any [safe] the product is a number or an infinity. *)
Lemma level_any (safe L : Q) :
  (∃ p, b64_mul (Fin safe) (Fin L) = Fin p)
  ∨ (∃ s, b64_mul (Fin safe) (Fin L) = Inf s).
Proof.
  unfold b64_mul. pose proof (round_not_nan (safe * L)).
  destruct (round (safe * L)); [eauto | eauto | contradiction].
Qed.
(** ** Running the monad *)

Ltac mrun :=
  unfold getScalar, emit, getExposure, getDetector, setDetector, raise, liftR;
  unfold mbind, M_bind, mret, M_ret; simpl.

Lemma later_later (w : world) (t u : list event) :
  later (later w t) u = later w (t ++ u).
Proof. unfold later. simpl. now rewrite app_assoc. Qed.

Lemma later_nil (w : world) : later w [] = w.
Proof. destruct w. unfold later. simpl. now rewrite app_nil_r. Qed.

Lemma getScalar_eval (key : string) (w : world) :
  getScalar key w
  = (lookupScalar (metadata (ccdExposure w)) key, later w [ReadScalar key]).
Proof.
  unfold lookupScalar, later. mrun.
  destruct (metadata (ccdExposure w) !! key); reflexivity.
Qed.

Lemma bind_eval {A B} (m : M A) (f : A → M B) (w w' : world) (r : result A) :
  m w = (r, w') →
  (m ≫= f) w = match r with Ok a => f a w' | Err e => (Err e, w') end.
Proof. intros H. unfold mbind, M_bind. rewrite H. now destruct r. Qed.

(** The loop body returns the outcome above and only reads. *)
Lemma repairAmp_eval (saturate : Q) (amp : Amplifier) (w : world) :
  ∃ t, repairAmp saturate amp w
       = (ampOutcome (metadata (ccdExposure w)) saturate amp, later w t).
Proof.
  unfold repairAmp, ampOutcome, rebuildAmp, getName.
  cbn [name setSaturation].
  destruct (String.eqb (name amp) "A");
    [| destruct (String.eqb (name amp) "B")].
  3:{ exists []. rewrite later_nil. reflexivity. }
  all: erewrite bind_eval by apply getScalar_eval;
    destruct (lookupScalar _ _) as [g |]; simpl; [| eauto];
    erewrite bind_eval by apply getScalar_eval;
    destruct (lookupScalar _ _) as [r |]; simpl;
      [| rewrite later_later; eauto];
    destruct (Qgtb r 60000);
      [ erewrite bind_eval by apply getScalar_eval;
        destruct (lookupScalar _ _) as [r' |]; simpl;
        rewrite !later_later; eauto
      | mrun; rewrite later_later; eauto ].
Qed.

Lemma repairAmps_eval (saturate : Q) (amps : list Amplifier) (b : Detector)
    (w : world) :
  ∃ t, repairAmps saturate amps b w
       = (bindR (ampsOutcome (metadata (ccdExposure w)) saturate amps)
                (λ done, Ok (withAmplifiers (amplifiers b ++ done) b)),
          later w t).
Proof.
  revert b w. induction amps as [| amp rest IH]; intros b w.
  - exists []. rewrite later_nil. simpl. rewrite app_nil_r. now destruct b.
  - cbn [repairAmps ampsOutcome].
    destruct (repairAmp_eval saturate amp w) as [t Ht].
    erewrite bind_eval by exact Ht.
    destruct (ampOutcome _ _ amp) as [tempAmp |]; simpl; [| eauto].
    destruct (IH (append b tempAmp) (later w t)) as [u Hu].
    rewrite Hu, later_later. exists (t ++ u). f_equal. simpl.
    destruct (ampsOutcome _ _ rest); simpl; [| reflexivity].
    now rewrite <- app_assoc.
Qed.

Lemma repairDetector_eval (saturate : Q) (ccd : Detector) (w : world) :
  ∃ t, repairDetector saturate ccd w
       = (bindR (ampsOutcome (metadata (ccdExposure w)) saturate (amplifiers ccd))
                (λ done, Ok (withAmplifiers done ccd)),
          later w t).
Proof.
  unfold repairDetector, rebuild, finish.
  destruct (repairAmps_eval saturate (amplifiers ccd) (clear ccd) w) as [t Ht].
  exists t. erewrite bind_eval by exact Ht. simpl.
  destruct (ampsOutcome _ _ _); reflexivity.
Qed.

(** ** The saturation estimate, branch by branch *)

(** The estimate as a function of the pixels, [safe] and the header. *)
Lemma detectSaturation_eval (config : CfhtIsrTaskConfig) (w : world) :
  detectSaturation config w
  = match np_max (ravel (image (ccdExposure w))) with
    | Err e => (Err e, w)
    | Ok m =>
        if Qgtb m 60000 then
          let range := histogramRange m in
          match histogramLevel (safe config) (ravel (image (ccdExposure w))) m with
          | Ok s => (Ok s, later w [Histogram (fst range) (snd range);
                                    LogInfo (int s)])
          | Err e => (Err e, later w [Histogram (fst range) (snd range)])
          end
        else
          match metadata (ccdExposure w) !! "SATURATE" with
          | Some s => (Ok s, later w [ReadScalar "SATURATE"; LogInfo (int s)])
          | None => (Err (MissingMetadata "SATURATE"),
                     later w [ReadScalar "SATURATE"])
          end
    end.
Proof.
  unfold detectSaturation.
  erewrite bind_eval by (unfold getExposure; reflexivity). cbv beta iota.
  destruct (np_max (ravel (image (ccdExposure w)))) as [m | e] eqn:Hmax.
  2:{ erewrite bind_eval by (unfold liftR; reflexivity). reflexivity. }
  erewrite bind_eval by (unfold liftR; reflexivity). cbv beta iota.
  destruct (Qgtb m 60000).
  - unfold histogramLevel, peakEdge, histogramRange, later.
    cbv beta iota zeta delta [mbind M_bind mret M_ret emit liftR fst snd].
    cbn [ccdExposure trace].
    destruct (np_histogram _ 100 _) as [[hist bin_edges] | e]; cbn [bindR];
      [| reflexivity].
    destruct (np_argmax hist) as [k | e]; cbn [bindR]; [| reflexivity].
    destruct (item bin_edges k) as [edge | e]; cbn [bindR]; [| reflexivity].
    destruct (py_int _) as [z | e]; cbn [bindR]; [| reflexivity].
    cbn [ccdExposure trace]. now rewrite <- app_assoc.
  - erewrite bind_eval by apply getScalar_eval.
    unfold lookupScalar.
    destruct (metadata (ccdExposure w) !! "SATURATE") as [s |]; [| reflexivity].
    erewrite bind_eval by (unfold emit; reflexivity). cbv beta iota.
    unfold mret, M_ret, later. cbn [ccdExposure trace].
    now rewrite <- app_assoc.
Qed.

Lemma detectSaturation_empty (config : CfhtIsrTaskConfig) (w : world) (e : error) :
  np_max (ravel (image (ccdExposure w))) = Err e →
  detectSaturation config w = (Err e, w).
Proof. intros H. now rewrite detectSaturation_eval, H. Qed.

Lemma detectSaturation_histogram (config : CfhtIsrTaskConfig) (w : world) (m : Q) :
  np_max (ravel (image (ccdExposure w))) = Ok m →
  60000 < m →
  detectSaturation config w
  = match histogramLevel (safe config) (ravel (image (ccdExposure w))) m with
    | Ok s => (Ok s, later w [Histogram (Fin 60000) (b64_add (Fin m) (Fin 1));
                              LogInfo (int s)])
    | Err e => (Err e, later w [Histogram (Fin 60000) (b64_add (Fin m) (Fin 1))])
    end.
Proof.
  intros Hmax Hm. rewrite detectSaturation_eval, Hmax.
  assert (Qgtb m 60000 = true) as -> by (now apply Qgtb_true).
  reflexivity.
Qed.

Lemma detectSaturation_metadata (config : CfhtIsrTaskConfig) (w : world) (m : Q) :
  np_max (ravel (image (ccdExposure w))) = Ok m →
  m <= 60000 →
  detectSaturation config w
  = match metadata (ccdExposure w) !! "SATURATE" with
    | Some s => (Ok s, later w [ReadScalar "SATURATE"; LogInfo (int s)])
    | None => (Err (MissingMetadata "SATURATE"), later w [ReadScalar "SATURATE"])
    end.
Proof.
  intros Hmax Hm. rewrite detectSaturation_eval, Hmax.
  assert (Qgtb m 60000 = false) as -> by (now apply Qgtb_false).
  reflexivity.
Qed.

(** Whatever happens, the estimate leaves the exposure alone. *)
Lemma detectSaturation_later (config : CfhtIsrTaskConfig) (w : world) :
  ∃ t, snd (detectSaturation config w) = later w t.
Proof.
  rewrite detectSaturation_eval.
  destruct (np_max _) as [m | e].
  - destruct (Qgtb m 60000).
    + cbv zeta. destruct (histogramLevel _ _ _); simpl; eauto.
    + destruct (metadata (ccdExposure w) !! "SATURATE"); simpl; eauto.
  - exists []. now rewrite later_nil.
Qed.

(** The estimate is a function of the image and of the header's SATURATE. *)
Lemma detectSaturation_agree (config : CfhtIsrTaskConfig) (w w2 : world) :
  image (ccdExposure w2) = image (ccdExposure w) →
  metadata (ccdExposure w2) !! "SATURATE" = metadata (ccdExposure w) !! "SATURATE" →
  fst (detectSaturation config w2) = fst (detectSaturation config w).
Proof.
  intros Himg Hsat. rewrite !detectSaturation_eval, Himg, Hsat.
  destruct (np_max _) as [m | e]; [| reflexivity].
  destruct (Qgtb m 60000).
  - cbv zeta. destruct (histogramLevel _ _ _); reflexivity.
  - destruct (metadata (ccdExposure w) !! "SATURATE"); reflexivity.
Qed.

(** The level of the histogram branch, for a largest pixel value [m]. *)
Lemma histogramLevel_cases (safe : Q) (a : list Q) (m : Q) :
  60000 < m →
  (histogramLevel safe a m = Err HistogramRange ∧ b64_max < m)
  ∨ (∃ L, peakEdge a m = Ok (Fin L) ∧ 60000 <= L ∧ L <= b64_max
          ∧ ((∃ p, b64_mul (Fin safe) (Fin L) = Fin p
                   ∧ histogramLevel safe a m = Ok (inject_Z (int p)))
             ∨ (∃ s, b64_mul (Fin safe) (Fin L) = Inf s
                     ∧ histogramLevel safe a m = Err OverflowError))).
Proof.
  intros Hm. unfold histogramLevel.
  destruct (peakEdge_cases a m Hm) as [[-> Hbig] | (L & HL & HL0 & HL1)].
  - left. auto.
  - right. exists L. rewrite HL. cbn [bindR]. repeat split; try assumption.
    destruct (level_any safe L) as [[p Hp] | [s Hs]].
    + left. exists p. rewrite Hp. auto.
    + right. exists s. rewrite Hs. auto.
Qed.

(** ** The outcome for one amplifier *)

Lemma name_cases (amp : Amplifier) :
  (name amp = "A" ∧ String.eqb (name amp) "A" = true)
  ∨ (name amp = "B" ∧ String.eqb (name amp) "A" = false
     ∧ String.eqb (name amp) "B" = true)
  ∨ (name amp ≠ "A" ∧ name amp ≠ "B" ∧ String.eqb (name amp) "A" = false
     ∧ String.eqb (name amp) "B" = false).
Proof.
  destruct (String.eqb_spec (name amp) "A") as [HA | HA]; [now left |].
  destruct (String.eqb_spec (name amp) "B") as [HB | HB].
  - right. left. auto.
  - right. right. auto.
Qed.

Lemma ampOutcome_A md saturate amp :
  name amp = "A" →
  ampOutcome md saturate amp
  = bindR (lookupScalar md "GAINA") (λ gainA,
    bindR (lookupScalar md "RDNOISEA") (λ rdnA,
    bindR (if Qgtb rdnA 60000 then lookupScalar md "RDNOISE" else Ok rdnA) (λ rdnA,
    Ok (setReadNoise rdnA (setGain gainA (setSaturation saturate amp)))))).
Proof. intros H. unfold ampOutcome. now rewrite H. Qed.

Lemma ampOutcome_B md saturate amp :
  name amp = "B" →
  ampOutcome md saturate amp
  = bindR (lookupScalar md "GAINB") (λ gainB,
    bindR (lookupScalar md "RDNOISEB") (λ rdnB,
    bindR (if Qgtb rdnB 60000 then lookupScalar md "RDNOISE" else Ok rdnB) (λ rdnB,
    Ok (setReadNoise rdnB (setGain gainB (setSaturation saturate amp)))))).
Proof. intros H. unfold ampOutcome. now rewrite H. Qed.

Lemma ampOutcome_unexpected md saturate amp :
  name amp ≠ "A" → name amp ≠ "B" →
  ampOutcome md saturate amp = Err (UnexpectedAmplifier (name amp)).
Proof.
  intros HA HB. unfold ampOutcome.
  destruct (String.eqb_spec (name amp) "A"); [contradiction |].
  destruct (String.eqb_spec (name amp) "B"); [contradiction |]. reflexivity.
Qed.

(** Case analysis on every test and lookup of the outcome. *)
Ltac outcome_cases md :=
  unfold bindR, lookupScalar;
  repeat match goal with
         | |- context [md !! ?k] => destruct (md !! k) eqn:?
         | |- context [Qgtb ?r 60000] => destruct (Qgtb r 60000) eqn:?
         end.

Lemma ampOutcome_expected_error md saturate amp e :
  expected amp → ampOutcome md saturate amp = Err e → ∃ key, e = MissingMetadata key.
Proof.
  intros [H | H]; [rewrite ampOutcome_A by exact H | rewrite ampOutcome_B by exact H];
    outcome_cases md; intros [= <-]; eauto.
Qed.

Lemma ampOutcome_description md saturate amp amp' :
  ampOutcome md saturate amp = Ok amp' →
  same_description amp amp' ∧ saturation amp' = saturate.
Proof.
  destruct (name_cases amp) as [[H _] | [(H & _) | (HA & HB & _)]].
  - rewrite ampOutcome_A by exact H. outcome_cases md; intros [= <-];
      unfold same_description; simpl; tauto.
  - rewrite ampOutcome_B by exact H. outcome_cases md; intros [= <-];
      unfold same_description; simpl; tauto.
  - rewrite ampOutcome_unexpected by assumption. discriminate.
Qed.

Lemma same_description_set (a b : Amplifier) (s g r : Q) :
  same_description a b →
  setReadNoise r (setGain g (setSaturation s a))
  = setReadNoise r (setGain g (setSaturation s b)).
Proof.
  intros (? & ? & ? & ? & ? & ? & ? & ? & ? & ?).
  unfold setReadNoise, setGain, setSaturation. simpl. congruence.
Qed.

(** The outcome does not look at the calibration scalars of its input. *)
Lemma ampOutcome_same md saturate a b :
  same_description a b → ampOutcome md saturate a = ampOutcome md saturate b.
Proof.
  intros Hab. pose proof Hab as (Hname & _).
  unfold ampOutcome. rewrite <- Hname.
  destruct (String.eqb (name a) "A"); [| destruct (String.eqb (name a) "B")];
    [| | reflexivity];
    outcome_cases md; try reflexivity; f_equal; now apply same_description_set.
Qed.


Lemma ampOutcome_complete md saturate amp :
  (∀ key, key ∈ amplifierKeys → is_Some (md !! key)) →
  expected amp → ∃ amp', ampOutcome md saturate amp = Ok amp'.
Proof.
  intros Hkeys Hexp.
  assert (HK : ∀ key, key ∈ amplifierKeys → md !! key ≠ None).
  { intros key Hin Hnone. destruct (Hkeys key Hin) as [v Hv]. congruence. }
  unfold amplifierKeys in HK.
  destruct Hexp as [H | H];
    [rewrite ampOutcome_A by exact H | rewrite ampOutcome_B by exact H];
    outcome_cases md; eauto;
    exfalso; eapply HK; try eassumption; set_solver.
Qed.

(** ** The outcome for the amplifiers of a detector *)

Lemma ampsOutcome_description md saturate amps done :
  ampsOutcome md saturate amps = Ok done →
  Forall2 same_description amps done
  ∧ Forall (λ a, saturation a = saturate) done.
Proof.
  revert done. induction amps as [| amp rest IH]; intros done; simpl.
  - intros [= <-]. split; constructor.
  - destruct (ampOutcome md saturate amp) as [amp' |] eqn:Hamp; simpl;
      [| discriminate].
    destruct (ampsOutcome md saturate rest) as [rest' |]; simpl; [| discriminate].
    intros [= <-]. destruct (IH rest' eq_refl) as [H2 HF].
    apply ampOutcome_description in Hamp as [Hd Hs].
    split; constructor; assumption.
Qed.

Lemma ampsOutcome_same md saturate amps1 amps2 :
  Forall2 same_description amps1 amps2 →
  ampsOutcome md saturate amps1 = ampsOutcome md saturate amps2.
Proof.
  induction 1 as [| a b l1 l2 Hab _ IH]; simpl; [reflexivity |].
  now rewrite (ampOutcome_same md saturate a b Hab), IH.
Qed.


(** The first amplifier with an unexpected name. *)
Lemma first_unexpected (amps : list Amplifier) :
  (∃ a, a ∈ amps ∧ name a ≠ "A" ∧ name a ≠ "B") →
  ∃ pre bad post, amps = pre ++ bad :: post ∧ Forall expected pre
                  ∧ name bad ≠ "A" ∧ name bad ≠ "B".
Proof.
  induction amps as [| amp rest IH]; intros (a & Hin & HA & HB).
  - inversion Hin.
  - destruct (name_cases amp) as [[H _] | [(H & _) | (HA' & HB' & _)]].
    3:{ exists [], amp, rest. repeat split; auto. }
    all: apply elem_of_cons in Hin as [-> | Hin]; [congruence |];
      destruct IH as (pre & bad & post & -> & Hpre & HbA & HbB); [eauto |];
      exists (amp :: pre), bad, post; repeat split; auto;
      constructor; [unfold expected; auto | assumption].
Qed.

Lemma ampsOutcome_unexpected md saturate pre bad post :
  Forall expected pre → name bad ≠ "A" → name bad ≠ "B" →
  ∃ e, ampsOutcome md saturate (pre ++ bad :: post) = Err e
       ∧ (e = UnexpectedAmplifier (name bad) ∨ ∃ key, e = MissingMetadata key)
       ∧ ((∀ key, key ∈ amplifierKeys → is_Some (md !! key)) →
          e = UnexpectedAmplifier (name bad)).
Proof.
  intros Hpre HA HB. induction Hpre as [| amp pre Hamp _ IH]; simpl.
  - rewrite ampOutcome_unexpected by assumption. simpl. eauto.
  - destruct (ampOutcome md saturate amp) as [amp' |] eqn:Hout; simpl.
    + destruct IH as (e & -> & Hkind & Hfull). simpl. eauto.
    + destruct (ampOutcome_expected_error md saturate amp e Hamp Hout) as [key ->].
      eexists. split; [reflexivity |]. split; [eauto |].
      intros Hkeys.
      destruct (ampOutcome_complete md saturate amp Hkeys Hamp) as [? ?].
      congruence.
Qed.

(** With expected names only, one failing amplifier makes the loop fail,
    and the failure is a missing key. *)
Lemma ampsOutcome_missing md saturate amps amp :
  Forall expected amps → amp ∈ amps →
  (∃ e, ampOutcome md saturate amp = Err e) →
  ∃ key, ampsOutcome md saturate amps = Err (MissingMetadata key).
Proof.
  intros Hexp Hin Hfail. induction Hexp as [| a rest Ha _ IH]; [inversion Hin |].
  simpl. destruct (ampOutcome md saturate a) as [a' |] eqn:Hout; simpl.
  - apply elem_of_cons in Hin as [-> | Hin].
    + destruct Hfail as [e He]. congruence.
    + destruct (IH Hin) as [key ->]. simpl. eauto.
  - destruct (ampOutcome_expected_error md saturate a e Ha Hout) as [key ->].
    eauto.
Qed.

(** ** Everything before the delegation *)

Lemma prepare_rejects {Kernel} (config : CfhtIsrTaskConfig) (k : Kernel) (w : world) :
  prepare config (Some k) w = (Err UnsupportedCorrection, w).
Proof. reflexivity. Qed.

Lemma prepare_eval {Kernel} (config : CfhtIsrTaskConfig) (w : world) :
  ∃ t, prepare (Kernel := Kernel) config None w
       = match fst (detectSaturation config w) with
         | Err e => (Err e, later w t)
         | Ok saturate =>
             let ccd := detector (ccdExposure w) in
             match ampsOutcome (metadata (ccdExposure w)) saturate (amplifiers ccd) with
             | Err e => (Err e, later w t)
             | Ok done =>
                 (Ok (), {| ccdExposure := withDetector (withAmplifiers done ccd)
                                                        (ccdExposure w);
                            trace := trace w ++ t |})
             end
         end.
Proof.
  unfold prepare.
  erewrite bind_eval by (unfold getDetector; reflexivity). cbv beta iota.
  destruct (detectSaturation_later config w) as [t Ht].
  destruct (detectSaturation config w) as [[saturate | e] w1] eqn:Hsat;
    simpl in Ht; subst w1.
  2:{ exists t. erewrite bind_eval by exact Hsat. reflexivity. }
  erewrite bind_eval by exact Hsat. cbv beta iota.
  destruct (repairDetector_eval saturate (detector (ccdExposure w)) (later w t))
    as [u Hu].
  erewrite bind_eval by exact Hu. cbn [later ccdExposure fst].
  exists (t ++ u).
  destruct (ampsOutcome _ _ _) as [done |]; simpl.
  - unfold setDetector, later. simpl. now rewrite app_assoc.
  - now rewrite later_later.
Qed.

(** * The claims *)

(** C5. Calling [run] with a brighter-fatter kernel fails with
    UnsupportedCorrection whatever the other inputs are, and it fails first:
    the world is returned as it was, with no metadata read, no histogram
    computed, no log record and the exposure untouched. *)
Theorem brighter_fatter_rejected {Calib Kernel Struct}
    (IsrTask_run : Exposure → Calib → option Struct * Exposure)
    (config : CfhtIsrTaskConfig) (calib : Calib) (bfKernel : Kernel) (w : world) :
  run IsrTask_run config calib (Some bfKernel) w = (Err UnsupportedCorrection, w).
Proof.
  unfold run. erewrite bind_eval by apply prepare_rejects. reflexivity.
Qed.

(** C2. When the largest pixel value is at most 60000, the saturation level
    is the metadata scalar SATURATE itself, for every value of [safe]; and
    when SATURATE is absent the estimate, and with it the run, fails with
    MissingMetadata for that key. *)
Theorem saturation_from_header {Calib Kernel Struct}
    (IsrTask_run : Exposure → Calib → option Struct * Exposure)
    (config : CfhtIsrTaskConfig) (calib : Calib) (w : world) (m : Q) :
  np_max (ravel (image (ccdExposure w))) = Ok m →
  m <= 60000 →
  (∀ s, metadata (ccdExposure w) !! "SATURATE" = Some s →
        fst (detectSaturation config w) = Ok s)
  ∧ (metadata (ccdExposure w) !! "SATURATE" = None →
     fst (detectSaturation config w) = Err (MissingMetadata "SATURATE")
     ∧ fst (run (Kernel := Kernel) IsrTask_run config calib None w)
       = Err (MissingMetadata "SATURATE")).
Proof.
  intros Hmax Hm.
  pose proof (detectSaturation_metadata config w m Hmax Hm) as Hsat.
  split.
  - intros s Hs. rewrite Hs in Hsat. now rewrite Hsat.
  - intros Hnone. rewrite Hnone in Hsat. split; [now rewrite Hsat |].
    unfold run. destruct (prepare_eval (Kernel := Kernel) config w) as [t Ht].
    rewrite Hsat in Ht. simpl in Ht.
    erewrite bind_eval by exact Ht. reflexivity.
Qed.

Lemma saturation_from_header_witness :
  fst (detectSaturation defaultConfig (start twoAmpCcd faintImage legacyHeader))
  = Ok 65535
  ∧ fst (run acceptAll defaultConfig () (None : option unit)
           (start twoAmpCcd faintImage ∅))
    = Err (MissingMetadata "SATURATE").
Proof.
  split.
  - apply (saturation_from_header (Kernel := unit) acceptAll defaultConfig ()
             (start twoAmpCcd faintImage legacyHeader) 1200);
      [reflexivity | unfold Qle; simpl; lia | reflexivity].
  - apply (saturation_from_header (Kernel := unit) acceptAll defaultConfig ()
             (start twoAmpCcd faintImage ∅) 1200);
      [reflexivity | unfold Qle; simpl; lia | reflexivity].
Defined.

(** C3. For an amplifier named A the repaired record has the gain GAINA and
    the read noise RDNOISEA, unless RDNOISEA exceeds 60000, in which case
    the read noise is RDNOISE; and likewise for B with GAINB and RDNOISEB. *)
Theorem gain_and_read_noise (saturate : Q) (amp : Amplifier) (w : world) (g r : Q) :
  let md := metadata (ccdExposure w) in
  (name amp = "A" ∧ md !! "GAINA" = Some g ∧ md !! "RDNOISEA" = Some r)
  ∨ (name amp = "B" ∧ md !! "GAINB" = Some g ∧ md !! "RDNOISEB" = Some r) →
  (r <= 60000 →
   ∃ amp', fst (repairAmp saturate amp w) = Ok amp'
           ∧ gain amp' = g ∧ readNoise amp' = r)
  ∧ (60000 < r → ∀ r0, md !! "RDNOISE" = Some r0 →
     ∃ amp', fst (repairAmp saturate amp w) = Ok amp'
             ∧ gain amp' = g ∧ readNoise amp' = r0).
Proof.
  intros md Hcase.
  destruct (repairAmp_eval saturate amp w) as [t ->]. fold md. cbn [fst].
  split.
  - intros Hr. apply Qgtb_false in Hr.
    destruct Hcase as [(Hn & Hg & Hrd) | (Hn & Hg & Hrd)];
      [rewrite ampOutcome_A by exact Hn | rewrite ampOutcome_B by exact Hn];
      unfold lookupScalar; rewrite Hg, Hrd; simpl; rewrite Hr; simpl; eauto.
  - intros Hr r0 Hr0. apply Qgtb_true in Hr.
    destruct Hcase as [(Hn & Hg & Hrd) | (Hn & Hg & Hrd)];
      [rewrite ampOutcome_A by exact Hn | rewrite ampOutcome_B by exact Hn];
      unfold lookupScalar; rewrite Hg, Hrd; simpl; rewrite Hr, Hr0; simpl; eauto.
Qed.

Lemma gain_and_read_noise_witness :
  (∃ amp', fst (repairAmp 57000 (ampNamed "A")
                  (start twoAmpCcd faintImage legacyHeader)) = Ok amp'
           ∧ gain amp' = 162 # 100 ∧ readNoise amp' = 52 # 10)
  ∧ (∃ amp', fst (repairAmp 57000 (ampNamed "A")
                    (start twoAmpCcd faintImage soundHeader)) = Ok amp'
             ∧ gain amp' = 162 # 100 ∧ readNoise amp' = 48 # 10)
  ∧ (∃ amp', fst (repairAmp 57000 (ampNamed "B")
                    (start twoAmpCcd faintImage legacyHeader)) = Ok amp'
             ∧ gain amp' = 17 # 10 ∧ readNoise amp' = 52 # 10).
Proof.
  split; [| split].
  - apply (proj2 (gain_and_read_noise 57000 (ampNamed "A")
                    (start twoAmpCcd faintImage legacyHeader) (162 # 100) 65535
                    (or_introl (conj eq_refl (conj eq_refl eq_refl)))));
      [unfold Qlt; simpl; lia | reflexivity].
  - apply (proj1 (gain_and_read_noise 57000 (ampNamed "A")
                    (start twoAmpCcd faintImage soundHeader) (162 # 100) (48 # 10)
                    (or_introl (conj eq_refl (conj eq_refl eq_refl))))).
    unfold Qle; simpl; lia.
  - apply (proj2 (gain_and_read_noise 57000 (ampNamed "B")
                    (start twoAmpCcd faintImage legacyHeader) (17 # 10) 65535
                    (or_intror (conj eq_refl (conj eq_refl eq_refl)))));
      [unfold Qlt; simpl; lia | reflexivity].
Defined.

(** ** The level of the histogram branch *)

(** The sign of the product [safe * L] follows the sign of [safe]. *)
Lemma product_nonneg (safe L p : Q) :
  0 <= safe → 0 <= L → b64_mul (Fin safe) (Fin L) = Fin p → 0 <= p.
Proof.
  intros Hs HL Hp. unfold b64_mul in Hp.
  pose proof (round_mono 0 (safe * L) (Qmult_le_0_compat _ _ Hs HL)) as H.
  rewrite round_0, Hp in H. exact H.
Qed.




(** The estimate of an image with pixels whose values are binary64
    numbers, for a [safe] between 0 and 1, fails only for want of SATURATE. *)
Lemma detectSaturation_well_formed (config : CfhtIsrTaskConfig) (w : world) :
  ravel (image (ccdExposure w)) ≠ [] →
  (∀ m, np_max (ravel (image (ccdExposure w))) = Ok m → m <= b64_max) →
  0 <= safe config → safe config <= 1 →
  (∃ s, fst (detectSaturation config w) = Ok s)
  ∨ (fst (detectSaturation config w) = Err (MissingMetadata "SATURATE")
     ∧ metadata (ccdExposure w) !! "SATURATE" = None).
Proof.
  intros Himg Hfin Hs0 Hs1.
  destruct (np_max_nonempty _ Himg) as [m Hmax].
  destruct (Qlt_le_dec 60000 m) as [Hm | Hm].
  - rewrite (detectSaturation_histogram config w m Hmax Hm).
    destruct (peakEdge_finite (ravel (image (ccdExposure w))) m Hm (Hfin m Hmax))
      as (_ & _ & _ & L & _ & _ & _ & _ & _ & HL0 & HL1 & Hp).
    destruct (level_fraction (safe config) L Hs0 Hs1 ltac:(lra) HL1)
      as (p & Hprod & _ & _).
    unfold histogramLevel. rewrite Hp. cbn [bindR]. rewrite Hprod.
    cbn [py_int bindR fst]. eauto.
  - rewrite (detectSaturation_metadata config w m Hmax Hm).
    destruct (metadata (ccdExposure w) !! "SATURATE"); eauto.
Qed.



(** The sample of the witness, evaluated: the peak bin starts at 60001,
    and the binary64 product with 0.95 is 57000.95, a little less than a
    number that is not a binary64 one. *)
Example saturation_rail_default :
  fst (detectSaturation defaultConfig (start twoAmpCcd railImage legacyHeader))
  = Ok 57000.
Proof. vm_compute. reflexivity. Qed.

(** Rounding decides the level.  The peak of three pixels 68300, 68300 and
    69999 starts at 68300, 0.94 is the binary64 number just below 94/100,
    and the binary64 product is just below 64202.  The peak of 60001, 60000
    and 60000 starts at 60000, 0.95 is the binary64 number just below
    95/100, and the binary64 product is 57000, above the exact one. *)
Example saturation_rounded_product :
  fst (detectSaturation {| safe := literal (94 # 100) |}
         (start twoAmpCcd [[68300; 68300; 69999]] legacyHeader))
  = Ok 64201
  ∧ Qfloor ((94 # 100) * 68300) = 64202%Z
  ∧ fst (detectSaturation defaultConfig
           (start twoAmpCcd [[60001; 60000; 60000]] legacyHeader))
    = Ok 57000
  ∧ Qfloor (safe defaultConfig * 60000) = 56999%Z.
Proof. repeat split; vm_compute; reflexivity. Qed.

(** C7, as stated, fails: on a faint image the recorded SATURATE is
    returned as it is, also when the header holds -1. *)
Lemma saturation_nonneg_fails :
  ¬ (∀ (config : CfhtIsrTaskConfig) (w : world) (s : Q),
       fst (detectSaturation config w) = Ok s → nonneg_integer s).
Proof.
  intros H.
  destruct (H defaultConfig (start twoAmpCcd faintImage negativeHeader) (-1)
              eq_refl) as (z & Hz & Heq).
  unfold Qeq in Heq. simpl in Heq. lia.
Qed.

(** C7, amended.  In the histogram branch the saturation level is a whole
    number, and a non-negative one whenever [safe] is not negative; in the
    metadata branch it is the recorded SATURATE, whatever that value is. *)
Theorem saturation_value (config : CfhtIsrTaskConfig) (w : world) (m s : Q) :
  np_max (ravel (image (ccdExposure w))) = Ok m →
  fst (detectSaturation config w) = Ok s →
  (60000 < m → is_integer s ∧ (0 <= safe config → nonneg_integer s))
  ∧ (m <= 60000 → metadata (ccdExposure w) !! "SATURATE" = Some s).
Proof.
  intros Hmax Hs. split.
  - intros Hm.
    rewrite (detectSaturation_histogram config w m Hmax Hm) in Hs.
    destruct (histogramLevel_cases (safe config) (ravel (image (ccdExposure w)))
                m Hm)
      as [[Herr _] | (L & _ & HL0 & _ & [(p & Hp & Hok) | (sg & _ & Herr)])];
      rewrite ?Herr, ?Hok in Hs; cbn [fst] in Hs; try discriminate.
    injection Hs as <-. split.
    + eexists. reflexivity.
    + intros Hsafe. eexists. split; [| reflexivity].
      apply int_sign_nonneg.
      apply (product_nonneg (safe config) L p Hsafe ltac:(lra) Hp).
  - intros Hm. rewrite (detectSaturation_metadata config w m Hmax Hm) in Hs.
    destruct (metadata (ccdExposure w) !! "SATURATE"); cbn [fst] in Hs;
      congruence.
Qed.

Lemma saturation_value_witness :
  (is_integer 57000 ∧ nonneg_integer 57000)
  ∧ negativeHeader !! "SATURATE" = Some (-1).
Proof.
  split.
  - destruct (saturation_value defaultConfig
                (start twoAmpCcd railImage legacyHeader) 60001 57000)
      as [Hhist _]; [reflexivity | vm_compute; reflexivity |].
    destruct Hhist as [Hint Hnonneg]; [unfold Qlt; simpl; lia |].
    split; [exact Hint |]. apply Hnonneg. unfold Qle. vm_compute. discriminate.
  - apply (saturation_value defaultConfig
             (start twoAmpCcd faintImage negativeHeader) 1200 (-1));
      [reflexivity | reflexivity | unfold Qle; simpl; lia].
Defined.



(** The values of [safe] outside the fractions, evaluated on the single
    rail pixel: a negative level, a level above the pixel values, and the
    failure of [int] on an infinite product. *)
Example safe_out_of_range :
  fst (detectSaturation {| safe := -1 # 2 |}
         (start twoAmpCcd railImage legacyHeader)) = Ok (-30000)
  ∧ fst (detectSaturation {| safe := 3 |}
           (start twoAmpCcd railImage legacyHeader)) = Ok 180003
  ∧ fst (detectSaturation {| safe := literal (10 ^ 308) |}
           (start twoAmpCcd railImage legacyHeader)) = Err OverflowError.
Proof. repeat split; vm_compute; reflexivity. Qed.

(** ** The run as a whole *)

Lemma run_prepare_failure {Calib Kernel Struct}
    (IsrTask_run : Exposure → Calib → option Struct * Exposure)
    (config : CfhtIsrTaskConfig) (calib : Calib) (bfKernel : option Kernel)
    (w w' : world) (e : error) :
  prepare config bfKernel w = (Err e, w') →
  run IsrTask_run config calib bfKernel w = (Err e, w').
Proof. intros H. unfold run. erewrite bind_eval by exact H. reflexivity. Qed.

(** When [prepare] fails, the exposure is as it was. *)
Lemma prepare_failure_frame {Kernel} (config : CfhtIsrTaskConfig)
    (bfKernel : option Kernel) (w w' : world) (e : error) :
  prepare config bfKernel w = (Err e, w') → ccdExposure w' = ccdExposure w.
Proof.
  destruct bfKernel as [b |].
  - rewrite prepare_rejects. now intros [= _ <-].
  - destruct (prepare_eval (Kernel := Kernel) config w) as [t ->].
    destruct (fst (detectSaturation config w)) as [s |];
      [cbv zeta; destruct (ampsOutcome _ _ _) |];
      intros [= ]; subst; reflexivity.
Qed.

(** C4, as stated, fails: the loop stops at the first amplifier that cannot
    be repaired.  With amplifiers A and C and a header without GAINA the
    repair fails on A with MissingMetadata before it meets C. *)
Lemma unexpected_amplifier_error_fails :
  ¬ (∀ (saturate : Q) (ccd : Detector) (w : world),
       (∃ a, a ∈ amplifiers ccd ∧ name a ≠ "A" ∧ name a ≠ "B") →
       ∃ a, a ∈ amplifiers ccd ∧ name a ≠ "A" ∧ name a ≠ "B"
            ∧ fst (repairDetector saturate ccd w)
              = Err (UnexpectedAmplifier (name a))).
Proof.
  intros H.
  destruct (H 65535 oddCcd (start oddCcd faintImage bareHeader))
    as (a & _ & _ & _ & Hres).
  { exists (ampNamed "C"). split; [| split; discriminate].
    apply elem_of_cons. right. apply elem_of_cons. now left. }
  assert (Hval : fst (repairDetector 65535 oddCcd
                        (start oddCcd faintImage bareHeader))
                 = Err (MissingMetadata "GAINA")) by reflexivity.
  rewrite Hval in Hres. discriminate.
Qed.

(** The loop body returns the outcome of its amplifier. *)
Lemma repairAmp_outcome (saturate : Q) (amp : Amplifier) (w : world) :
  fst (repairAmp saturate amp w)
  = ampOutcome (metadata (ccdExposure w)) saturate amp.
Proof. destruct (repairAmp_eval saturate amp w) as [t ->]. reflexivity. Qed.

(** The loop fails at the first amplifier whose repair fails: at the first
    unexpected one when every amplifier before it is repaired. *)
Lemma ampsOutcome_first_failure md saturate pre bad post :
  Forall expected pre → name bad ≠ "A" → name bad ≠ "B" →
  ∃ e, ampsOutcome md saturate (pre ++ bad :: post) = Err e
       ∧ ((∀ a, a ∈ pre → ∃ a', ampOutcome md saturate a = Ok a') →
          e = UnexpectedAmplifier (name bad))
       ∧ (e = UnexpectedAmplifier (name bad)
          ∨ ∃ done a rest key,
              pre = done ++ a :: rest
              ∧ (∀ b, b ∈ done → ∃ b', ampOutcome md saturate b = Ok b')
              ∧ ampOutcome md saturate a = Err (MissingMetadata key)
              ∧ e = MissingMetadata key).
Proof.
  intros Hpre HA HB. induction Hpre as [| amp pre Hamp _ IH]; simpl.
  - rewrite ampOutcome_unexpected by assumption. simpl. eauto.
  - destruct (ampOutcome md saturate amp) as [amp' |] eqn:Hout; simpl.
    + destruct IH as (e & -> & Hgood & Hkind). simpl.
      exists e. split; [reflexivity |]. split.
      * intros Hall. apply Hgood. intros a Ha. apply Hall.
        apply elem_of_cons. now right.
      * destruct Hkind as [-> | (done & a & rest & key & -> & Hdone & Ha & ->)];
          [now left | right].
        exists (amp :: done), a, rest, key. repeat split; auto.
        intros b Hb. apply elem_of_cons in Hb as [-> | Hb]; eauto.
    + destruct (ampOutcome_expected_error md saturate amp e Hamp Hout) as [key ->].
      eexists. split; [reflexivity |]. split.
      * intros Hall. destruct (Hall amp) as [a' Ha']; [apply elem_of_cons; now left |].
        congruence.
      * right. exists [], amp, pre, key. repeat split; auto.
        intros b Hb. inversion Hb.
Qed.

(** C4, amended.  For a detector with an amplifier named neither A nor B
    the repair fails.  It fails with UnexpectedAmplifier naming the first
    such amplifier, unless the repair of an amplifier before it failed, in
    which case it fails with the MissingMetadata of the first amplifier
    whose repair failed; in particular it is UnexpectedAmplifier whenever
    the metadata holds the gain and read-noise keys.  No corrected detector
    is produced, and the run fails with the exposure, and so its detector,
    left as it was. *)
Theorem unexpected_amplifier_aborts {Calib Kernel Struct}
    (IsrTask_run : Exposure → Calib → option Struct * Exposure)
    (config : CfhtIsrTaskConfig) (calib : Calib) (bfKernel : option Kernel)
    (saturate : Q) (ccd : Detector) (w : world) :
  (∃ a, a ∈ amplifiers ccd ∧ name a ≠ "A" ∧ name a ≠ "B") →
  ∃ pre bad post e,
    amplifiers ccd = pre ++ bad :: post
    ∧ Forall expected pre ∧ name bad ≠ "A" ∧ name bad ≠ "B"
    ∧ fst (repairDetector saturate ccd w) = Err e
    ∧ ((∀ a, a ∈ pre → ∃ a', fst (repairAmp saturate a w) = Ok a') →
       e = UnexpectedAmplifier (name bad))
    ∧ (e = UnexpectedAmplifier (name bad)
       ∨ ∃ done a rest key,
           pre = done ++ a :: rest
           ∧ (∀ b, b ∈ done → ∃ b', fst (repairAmp saturate b w) = Ok b')
           ∧ fst (repairAmp saturate a w) = Err (MissingMetadata key)
           ∧ e = MissingMetadata key)
    ∧ ((∀ key, key ∈ amplifierKeys → is_Some (metadata (ccdExposure w) !! key)) →
       e = UnexpectedAmplifier (name bad))
    ∧ ccdExposure (snd (repairDetector saturate ccd w)) = ccdExposure w
    ∧ (ccd = detector (ccdExposure w) →
       ∃ e', fst (run IsrTask_run config calib bfKernel w) = Err e'
             ∧ ccdExposure (snd (run IsrTask_run config calib bfKernel w))
               = ccdExposure w).
Proof.
  intros Hbad.
  destruct (first_unexpected (amplifiers ccd) Hbad)
    as (pre & bad & post & Hsplit & Hpre & HA & HB).
  destruct (ampsOutcome_first_failure (metadata (ccdExposure w)) saturate
              pre bad post Hpre HA HB) as (e & He & Hgood & Hkind).
  destruct (ampsOutcome_unexpected (metadata (ccdExposure w)) saturate
              pre bad post Hpre HA HB) as (e0 & He0 & _ & Hfull).
  assert (e0 = e) as -> by congruence.
  exists pre, bad, post, e.
  destruct (repairDetector_eval saturate ccd w) as [t Ht].
  rewrite Ht, Hsplit, He. cbn [fst snd bindR later ccdExposure].
  split; [reflexivity |]. split; [exact Hpre |]. split; [exact HA |].
  split; [exact HB |]. split; [reflexivity |]. split; [| split; [| split]].
  - intros Hall. apply Hgood. intros a Ha.
    rewrite <- repairAmp_outcome. now apply Hall.
  - destruct Hkind as [-> | (done & a & rest & key & -> & Hdone & Ha & ->)];
      [now left | right].
    exists done, a, rest, key. rewrite !repairAmp_outcome.
    repeat split; auto.
    intros b Hb. rewrite repairAmp_outcome. now apply Hdone.
  - exact Hfull.
  - split; [reflexivity |]. intros ->.
    assert (Hprep : ∃ e' w', prepare config bfKernel w = (Err e', w')).
    { destruct bfKernel as [b |]; [rewrite prepare_rejects; eauto |].
      destruct (prepare_eval (Kernel := Kernel) config w) as [u ->].
      destruct (fst (detectSaturation config w)) as [s |]; [| eauto].
      cbv zeta. rewrite Hsplit.
      destruct (ampsOutcome_unexpected (metadata (ccdExposure w)) s
                  pre bad post Hpre HA HB) as (e' & -> & _). eauto. }
    destruct Hprep as (e' & w' & Hprep).
    rewrite (run_prepare_failure IsrTask_run config calib bfKernel w w' e' Hprep).
    exists e'. split; [reflexivity |].
    exact (prepare_failure_frame config bfKernel w w' e' Hprep).
Qed.

Lemma unexpected_amplifier_aborts_witness :
  fst (repairDetector 65535 oddCcd (start oddCcd faintImage legacyHeader))
  = Err (UnexpectedAmplifier "C")
  ∧ ccdExposure (snd (run acceptAll defaultConfig () (None : option unit)
                        (start oddCcd faintImage legacyHeader)))
    = ccdExposure (start oddCcd faintImage legacyHeader).
Proof.
  destruct (unexpected_amplifier_aborts acceptAll defaultConfig ()
              (None : option unit) 65535 oddCcd
              (start oddCcd faintImage legacyHeader))
    as (pre & bad & post & e & _ & _ & _ & _ & _ & _ & _ & _ & _ & Hrun).
  { exists (ampNamed "C"). split; [| split; discriminate].
    apply elem_of_cons. right. apply elem_of_cons. now left. }
  split; [reflexivity |].
  destruct (Hrun eq_refl) as (e' & _ & Hframe). exact Hframe.
Defined.

(** Three headers, evaluated.  A lone amplifier C fails as unexpected
    whatever the header lacks; after an amplifier A it does so when GAINA
    and RDNOISEA are on record, also without the keys of B; and without
    GAINA the repair stops at A. *)
Example unexpected_amplifier_headers :
  fst (repairDetector 65535 (ccdOf [ampNamed "C"])
         (start (ccdOf [ampNamed "C"]) faintImage ∅))
  = Err (UnexpectedAmplifier "C")
  ∧ fst (repairDetector 65535 oddCcd
           (start oddCcd faintImage
              (list_to_map [("GAINA", 162 # 100); ("RDNOISEA", 48 # 10)])))
    = Err (UnexpectedAmplifier "C")
  ∧ fst (repairDetector 65535 oddCcd (start oddCcd faintImage bareHeader))
    = Err (MissingMetadata "GAINA").
Proof. repeat split; reflexivity. Qed.

(** C6.  On a successful run the detector that is sealed and handed to
    [IsrTask.run] has as many amplifiers as the original one, in the same
    order, and each agrees with its original on every field other than
    saturation, gain and read noise. *)
Theorem amplifiers_kept {Calib Kernel Struct}
    (IsrTask_run : Exposure → Calib → option Struct * Exposure)
    (config : CfhtIsrTaskConfig) (calib : Calib) (bfKernel : option Kernel)
    (w w' : world) (s : Struct) :
  run IsrTask_run config calib bfKernel w = (Ok s, w') →
  ∃ w1, prepare config bfKernel w = (Ok (), w1)
        ∧ IsrTask_run (ccdExposure w1) calib = (Some s, ccdExposure w')
        ∧ length (amplifiers (detector (ccdExposure w1)))
          = length (amplifiers (detector (ccdExposure w)))
        ∧ Forall2 same_description
            (amplifiers (detector (ccdExposure w)))
            (amplifiers (detector (ccdExposure w1))).
Proof.
  unfold run. intros Hrun.
  destruct (prepare config bfKernel w) as [[[] | e] w1] eqn:Hprep.
  2:{ erewrite bind_eval in Hrun by exact Hprep. discriminate. }
  erewrite bind_eval in Hrun by exact Hprep.
  exists w1. split; [reflexivity |].
  assert (Hcall : IsrTask_run (ccdExposure w1) calib = (Some s, ccdExposure w')).
  { unfold callIsrTask in Hrun.
    destruct (IsrTask_run (ccdExposure w1) calib) as [[s' |] e'];
      [| discriminate].
    injection Hrun as -> <-. reflexivity. }
  split; [exact Hcall |].
  assert (Hamps : Forall2 same_description
                    (amplifiers (detector (ccdExposure w)))
                    (amplifiers (detector (ccdExposure w1)))).
  { destruct bfKernel as [b |]; [rewrite prepare_rejects in Hprep; discriminate |].
    destruct (prepare_eval (Kernel := Kernel) config w) as [t Ht].
    rewrite Hprep in Ht.
    destruct (fst (detectSaturation config w)) as [saturate |];
      [| discriminate].
    cbv zeta in Ht.
    destruct (ampsOutcome _ _ _) as [done |] eqn:Hout; [| discriminate].
    injection Ht as ->. cbn [ccdExposure detector withDetector amplifiers
                               withAmplifiers].
    now apply ampsOutcome_description in Hout as [? _]. }
  split; [| exact Hamps].
  symmetry. exact (Forall2_length _ _ _ Hamps).
Qed.

Lemma amplifiers_kept_witness :
  ∃ w1, prepare defaultConfig (None : option unit)
          (start staleCcd railImage legacyHeader) = (Ok (), w1)
        ∧ length (amplifiers (detector (ccdExposure w1))) = 2%nat
        ∧ Forall2 same_description (amplifiers staleCcd)
            (amplifiers (detector (ccdExposure w1))).
Proof.
  destruct (amplifiers_kept acceptAll defaultConfig () (None : option unit)
              (start staleCcd railImage legacyHeader)
              (snd (run acceptAll defaultConfig () (None : option unit)
                      (start staleCcd railImage legacyHeader)))
              (withDetector
                 (ccdOf [setReadNoise (52 # 10) (setGain (162 # 100)
                           (setSaturation 57000 (setGain 9 (ampNamed "A"))));
                         setReadNoise (52 # 10) (setGain (17 # 10)
                           (setSaturation 57000
                              (setReadNoise 7 (setSaturation 1 (ampNamed "B")))))])
                 (ccdExposure (start staleCcd railImage legacyHeader))))
    as (w1 & Hprep & _ & Hlen & Hamps); [vm_compute; reflexivity |].
  exists w1. split; [exact Hprep |]. split; [exact Hlen | exact Hamps].
Defined.

(** C8.  The repair is a function of the metadata, the saturation level and
    the description of the amplifiers: two runs with the same metadata and
    saturation, on detectors that differ at most in the calibration scalars
    on record (and in worlds that may differ in everything but the
    metadata), produce the same amplifier records or the same failure; and
    repairing the corrected detector again gives it back. *)
Theorem repair_deterministic (saturate : Q) (ccd1 ccd2 : Detector) (w1 w2 : world) :
  metadata (ccdExposure w1) = metadata (ccdExposure w2) →
  Forall2 same_description (amplifiers ccd1) (amplifiers ccd2) →
  mapR amplifiers (fst (repairDetector saturate ccd1 w1))
  = mapR amplifiers (fst (repairDetector saturate ccd2 w2))
  ∧ ∀ ccd', fst (repairDetector saturate ccd1 w1) = Ok ccd' →
            fst (repairDetector saturate ccd' w2) = Ok ccd'.
Proof.
  intros Hmd Hamps.
  destruct (repairDetector_eval saturate ccd1 w1) as [t1 ->].
  destruct (repairDetector_eval saturate ccd2 w2) as [t2 ->].
  cbn [fst]. rewrite <- Hmd.
  rewrite <- (ampsOutcome_same _ saturate _ _ Hamps).
  split.
  - destruct (ampsOutcome _ _ _); reflexivity.
  - intros ccd' Hok.
    destruct (repairDetector_eval saturate ccd' w2) as [t ->].
    cbn [fst]. rewrite <- Hmd.
    destruct (ampsOutcome _ saturate (amplifiers ccd1)) as [done |] eqn:Hout;
      [| discriminate].
    injection Hok as <-. cbn [amplifiers withAmplifiers].
    apply ampsOutcome_description in Hout as Hdesc. destruct Hdesc as [Hdesc _].
    rewrite <- (ampsOutcome_same _ saturate _ _ Hdesc), Hout. reflexivity.
Qed.

Lemma repair_deterministic_witness :
  mapR amplifiers (fst (repairDetector 57000 twoAmpCcd
                          (start twoAmpCcd faintImage legacyHeader)))
  = mapR amplifiers (fst (repairDetector 57000 staleCcd
                            (start staleCcd railImage legacyHeader))).
Proof.
  apply (repair_deterministic 57000 twoAmpCcd staleCcd
           (start twoAmpCcd faintImage legacyHeader)
           (start staleCcd railImage legacyHeader) eq_refl).
  repeat constructor.
Defined.
(** ** A missing read-noise key *)

Lemma noise_key_absent_fails md saturate amp :
  (name amp = "A" ∧ md !! "RDNOISEA" = None)
  ∨ (name amp = "B" ∧ md !! "RDNOISEB" = None) →
  ∃ e, ampOutcome md saturate amp = Err e.
Proof.
  intros [[Hn Hk] | [Hn Hk]];
    [rewrite ampOutcome_A by exact Hn | rewrite ampOutcome_B by exact Hn];
    unfold lookupScalar; rewrite Hk;
    match goal with |- context [md !! ?k] => destruct (md !! k) end;
    simpl; eauto.
Qed.

(** C9.  For an amplifier named A (B) the key RDNOISEA (RDNOISEB) is read
    before the value is tested: when it is absent the loop body fails with
    MissingMetadata, whatever the header holds under RDNOISE, and without
    ever asking for RDNOISE; and the run, on a detector with expected names
    and an image with pixels, fails: with MissingMetadata, unless the
    saturation estimate before the loop failed in its arithmetic, which a
    [safe] between 0 and 1 and pixel values that are binary64 numbers
    exclude. *)
Theorem read_noise_key_required {Calib Kernel Struct}
    (IsrTask_run : Exposure → Calib → option Struct * Exposure)
    (config : CfhtIsrTaskConfig) (calib : Calib)
    (saturate : Q) (amp : Amplifier) (w : world) :
  let md := metadata (ccdExposure w) in
  (name amp = "A" ∧ md !! "RDNOISEA" = None)
  ∨ (name amp = "B" ∧ md !! "RDNOISEB" = None) →
  (∃ key t, repairAmp saturate amp w = (Err (MissingMetadata key), later w t)
            ∧ ReadScalar "RDNOISE" ∉ t)
  ∧ (amp ∈ amplifiers (detector (ccdExposure w)) →
     Forall expected (amplifiers (detector (ccdExposure w))) →
     ravel (image (ccdExposure w)) ≠ [] →
     ∃ e, fst (run (Kernel := Kernel) IsrTask_run config calib None w) = Err e
          ∧ ((∃ key, e = MissingMetadata key)
             ∨ fst (detectSaturation config w) = Err e
               ∧ (e = OverflowError ∨ e = HistogramRange))
          ∧ (0 <= safe config → safe config <= 1 →
             (∀ m, np_max (ravel (image (ccdExposure w))) = Ok m → m <= b64_max) →
             ∃ key, e = MissingMetadata key)).
Proof.
  intros md Hcase. split.
  - unfold repairAmp, rebuildAmp, getName. cbn [name setSaturation].
    destruct Hcase as [[Hn Hk] | [Hn Hk]]; rewrite Hn; cbn [String.eqb Ascii.eqb
      Bool.eqb];
      erewrite bind_eval by apply getScalar_eval;
      unfold lookupScalar at 1; fold md;
      match goal with |- context [md !! ?k] => destruct (md !! k) end.
    all: try (eexists _, [_]; split; [reflexivity |];
              rewrite list_elem_of_singleton; discriminate).
    all: erewrite bind_eval by apply getScalar_eval;
      unfold lookupScalar; cbn [later ccdExposure]; fold md; rewrite Hk;
      rewrite later_later; eexists _, _; (split; [reflexivity |]);
      cbn [app]; rewrite !not_elem_of_cons; repeat split;
      try discriminate; apply not_elem_of_nil.
  - intros Hin Hexp Himg.
    destruct (np_max_nonempty _ Himg) as [m Hmax].
    assert (Hsat : (∃ s, fst (detectSaturation config w) = Ok s)
                   ∨ fst (detectSaturation config w)
                     = Err (MissingMetadata "SATURATE")
                   ∨ ∃ e, fst (detectSaturation config w) = Err e
                          ∧ (e = OverflowError ∨ e = HistogramRange)).
    { destruct (Qlt_le_dec 60000 m) as [Hm | Hm].
      - rewrite (detectSaturation_histogram config w m Hmax Hm).
        destruct (histogramLevel_cases (safe config)
                    (ravel (image (ccdExposure w))) m Hm)
          as [[-> _] | (L & _ & _ & _ & [(p & _ & ->) | (sg & _ & ->)])];
          cbn [fst]; eauto 6.
      - rewrite (detectSaturation_metadata config w m Hmax Hm).
        destruct (metadata (ccdExposure w) !! "SATURATE"); eauto. }
    assert (Hprep : ∃ e w', prepare (Kernel := Kernel) config None w = (Err e, w')
                            ∧ ((∃ key, e = MissingMetadata key)
                               ∨ fst (detectSaturation config w) = Err e
                                 ∧ (e = OverflowError ∨ e = HistogramRange))).
    { destruct (prepare_eval (Kernel := Kernel) config w) as [t ->].
      destruct Hsat as [[s Hs] | [Hs | (e & Hs & He)]]; rewrite Hs; eauto 7.
      cbv zeta.
      destruct (ampsOutcome_missing md s _ amp Hexp Hin
                  (noise_key_absent_fails md s amp Hcase)) as [key Hkey].
      fold md. rewrite Hkey. eauto 7. }
    destruct Hprep as (e & w' & Hprep & Hkind).
    rewrite (run_prepare_failure IsrTask_run config calib None w w' _ Hprep).
    exists e. split; [reflexivity |]. split; [exact Hkind |].
    intros Hs0 Hs1 Hfin.
    destruct Hkind as [Hkey | [Herr He]]; [exact Hkey |].
    destruct (detectSaturation_well_formed config w Himg Hfin Hs0 Hs1)
      as [[s Hs] | [Hs _]]; rewrite Hs in Herr; [discriminate |].
    injection Herr as <-. eauto.
Qed.

Lemma read_noise_key_required_witness :
  (∃ key t, repairAmp 57000 (ampNamed "A")
              (start twoAmpCcd faintImage partialHeader)
            = (Err (MissingMetadata key),
               later (start twoAmpCcd faintImage partialHeader) t)
            ∧ ReadScalar "RDNOISE" ∉ t)
  ∧ ∃ key, fst (run acceptAll defaultConfig () (None : option unit)
                  (start twoAmpCcd faintImage partialHeader))
           = Err (MissingMetadata key).
Proof.
  destruct (read_noise_key_required (Kernel := unit) acceptAll defaultConfig ()
              57000 (ampNamed "A") (start twoAmpCcd faintImage partialHeader))
    as [Hbody Hrun]; [left; split; reflexivity |].
  split; [exact Hbody |].
  destruct Hrun as (e & He & _ & Hkey).
  - apply list_elem_of_here.
  - constructor; [now left |]. constructor; [now right |]. constructor.
  - discriminate.
  - destruct Hkey as [key ->].
    + unfold Qle. vm_compute. discriminate.
    + unfold Qle. vm_compute. discriminate.
    + intros m Hm. vm_compute in Hm. injection Hm as <-.
      unfold Qle. vm_compute. discriminate.
    + exists key. exact He.
Defined.

(** The witness, evaluated: the fallback key is present and still the run
    stops at RDNOISEA. *)
Example partial_header_run :
  partialHeader !! "RDNOISE" = Some (52 # 10)
  ∧ fst (run acceptAll defaultConfig () (None : option unit)
           (start twoAmpCcd faintImage partialHeader))
    = Err (MissingMetadata "RDNOISEA").
Proof. split; reflexivity. Qed.

(** * Further properties of [run] *)

(** ** How the estimate and the loop can fail *)




Lemma ampsOutcome_complete md saturate amps :
  (∀ key, key ∈ amplifierKeys → is_Some (md !! key)) →
  Forall expected amps → ∃ done, ampsOutcome md saturate amps = Ok done.
Proof.
  intros Hkeys. induction 1 as [| amp rest Hamp _ IH]; simpl; [eauto |].
  destruct (ampOutcome_complete md saturate amp Hkeys Hamp) as [amp' ->].
  destruct IH as [done ->]. simpl. eauto.
Qed.

(** X1.  An exposure whose image has no pixels makes [run] fail at the
    maximum, before anything else happens: nothing is read from the
    header, nothing is logged, and the exposure is as it was. *)
Theorem empty_image_fails {Calib Kernel Struct}
    (IsrTask_run : Exposure → Calib → option Struct * Exposure)
    (config : CfhtIsrTaskConfig) (calib : Calib) (w : world) :
  ravel (image (ccdExposure w)) = [] →
  run (Kernel := Kernel) IsrTask_run config calib None w = (Err ZeroSizeArray, w).
Proof.
  intros Hempty. apply run_prepare_failure. unfold prepare.
  erewrite bind_eval by (unfold getDetector; reflexivity). cbv beta iota.
  erewrite bind_eval
    by (apply detectSaturation_empty; now rewrite Hempty).
  reflexivity.
Qed.

Lemma empty_image_fails_witness :
  run acceptAll defaultConfig () (None : option unit)
    (start twoAmpCcd emptyImage legacyHeader)
  = (Err ZeroSizeArray, start twoAmpCcd emptyImage legacyHeader).
Proof.
  apply (empty_image_fails (Kernel := unit) acceptAll defaultConfig ()
           (start twoAmpCcd emptyImage legacyHeader)).
  reflexivity.
Defined.

(** X2.  Whenever [run] fails before it reaches [IsrTask.run], the
    exposure is returned as it was: the detector is replaced only after
    every amplifier has been repaired. *)
Theorem failure_leaves_exposure {Calib Kernel Struct}
    (IsrTask_run : Exposure → Calib → option Struct * Exposure)
    (config : CfhtIsrTaskConfig) (calib : Calib) (bfKernel : option Kernel)
    (w w' : world) (e : error) :
  run IsrTask_run config calib bfKernel w = (Err e, w') →
  e ≠ IsrFailure →
  ccdExposure w' = ccdExposure w.
Proof.
  unfold run. intros Hrun Hne.
  destruct (prepare config bfKernel w) as [[[] | e1] w1] eqn:Hprep;
    erewrite bind_eval in Hrun by exact Hprep.
  - unfold callIsrTask in Hrun.
    destruct (IsrTask_run (ccdExposure w1) calib) as [[s |] e'];
      [discriminate | congruence].
  - injection Hrun as <- <-.
    exact (prepare_failure_frame config bfKernel w w1 e1 Hprep).
Qed.

Lemma failure_leaves_exposure_witness :
  ccdExposure (snd (run acceptAll defaultConfig () (None : option unit)
                      (start twoAmpCcd railImage partialHeader)))
  = ccdExposure (start twoAmpCcd railImage partialHeader).
Proof.
  apply (failure_leaves_exposure acceptAll defaultConfig () (None : option unit)
           (start twoAmpCcd railImage partialHeader) _
           (MissingMetadata "RDNOISEA")); [reflexivity | discriminate].
Defined.


(** The two arithmetic failures, evaluated on a single pixel: a [safe] of
    1e308 on the rail pixel, and a pixel value of twice the largest
    binary64 number, which stands for an infinite one. *)
Example arithmetic_failures :
  fst (prepare (Kernel := unit) {| safe := literal (10 ^ 308) |} None
         (start twoAmpCcd railImage legacyHeader)) = Err OverflowError
  ∧ fst (prepare (Kernel := unit) defaultConfig None
           (start twoAmpCcd [[2 * b64_max]] legacyHeader)) = Err HistogramRange.
Proof. split; vm_compute; reflexivity. Qed.

(** ** Successful runs *)

(** What a successful [prepare] leaves behind. *)
Lemma prepare_success {Kernel} (config : CfhtIsrTaskConfig)
    (bfKernel : option Kernel) (w w1 : world) :
  prepare config bfKernel w = (Ok (), w1) →
  ∃ s done t,
    bfKernel = None
    ∧ fst (detectSaturation config w) = Ok s
    ∧ ampsOutcome (metadata (ccdExposure w)) s
        (amplifiers (detector (ccdExposure w))) = Ok done
    ∧ w1 = {| ccdExposure := withDetector
                               (withAmplifiers done (detector (ccdExposure w)))
                               (ccdExposure w);
              trace := trace w ++ t |}.
Proof.
  destruct bfKernel as [b |]; [rewrite prepare_rejects; discriminate |].
  destruct (prepare_eval (Kernel := Kernel) config w) as [t ->].
  destruct (fst (detectSaturation config w)) as [s |]; [| discriminate].
  cbv zeta. destruct (ampsOutcome _ _ _) as [done |] eqn:Hout; [| discriminate].
  intros [= <-]. exists s, done, t. auto.
Qed.

(** X4.  [run] does not check how many amplifiers there are.  With an
    image that has pixels, whose values are binary64 numbers, a [safe]
    between 0 and 1, the six keys in the header and a detector whose
    amplifiers are all named A or B (none, one, repeated, in any order) the
    work before the delegation succeeds, and [run] returns what
    [IsrTask.run] returns for the updated exposure. *)
Theorem well_formed_run {Calib Kernel Struct}
    (IsrTask_run : Exposure → Calib → option Struct * Exposure)
    (config : CfhtIsrTaskConfig) (calib : Calib) (w : world) :
  ravel (image (ccdExposure w)) ≠ [] →
  (∀ m, np_max (ravel (image (ccdExposure w))) = Ok m → m <= b64_max) →
  0 <= safe config →
  safe config <= 1 →
  (∀ key, key ∈ runKeys → is_Some (metadata (ccdExposure w) !! key)) →
  Forall expected (amplifiers (detector (ccdExposure w))) →
  ∃ w1, prepare (Kernel := Kernel) config None w = (Ok (), w1)
        ∧ fst (run (Kernel := Kernel) IsrTask_run config calib None w)
          = match fst (IsrTask_run (ccdExposure w1) calib) with
            | Some s => Ok s
            | None => Err IsrFailure
            end.
Proof.
  intros Himg Hfin Hs0 Hs1 Hkeys Hexp.
  assert (Hprep : ∃ w1, prepare (Kernel := Kernel) config None w = (Ok (), w1)).
  { destruct (prepare config None w) as [[[] | e] w1] eqn:Hprep; [eauto |].
    exfalso.
    destruct (prepare_eval (Kernel := Kernel) config w) as [t Ht].
    rewrite Hprep in Ht.
    destruct (detectSaturation_well_formed config w Himg Hfin Hs0 Hs1)
      as [[s Hs] | [_ Hnone]].
    - rewrite Hs in Ht. cbv zeta in Ht.
      destruct (ampsOutcome_complete (metadata (ccdExposure w)) s
                  (amplifiers (detector (ccdExposure w)))) as [done Hd];
        [intros key Hin; apply Hkeys; now apply list_elem_of_further
        | exact Hexp |].
      rewrite Hd in Ht. discriminate.
    - destruct (Hkeys "SATURATE" ltac:(apply list_elem_of_here)) as [s Hs].
      congruence. }
  destruct Hprep as [w1 Hprep]. exists w1. split; [exact Hprep |].
  unfold run. erewrite bind_eval by exact Hprep. unfold callIsrTask.
  destruct (IsrTask_run (ccdExposure w1) calib) as [[s |] e]; reflexivity.
Qed.

Lemma legacyHeader_complete (key : string) :
  key ∈ runKeys → is_Some (legacyHeader !! key).
Proof.
  unfold runKeys, amplifierKeys. intros Hin.
  repeat (apply elem_of_cons in Hin as [-> | Hin]; [eexists; reflexivity |]).
  inversion Hin.
Qed.

Lemma well_formed_run_witness :
  (∃ w1, prepare defaultConfig (None : option unit)
           (start tripleCcd railImage legacyHeader) = (Ok (), w1)
         ∧ fst (run acceptAll defaultConfig () (None : option unit)
                  (start tripleCcd railImage legacyHeader))
           = match fst (acceptAll (ccdExposure w1) ()) with
             | Some s => Ok s
             | None => Err IsrFailure
             end)
  ∧ (∃ w1, prepare defaultConfig (None : option unit)
             (start bareCcd railImage legacyHeader) = (Ok (), w1)
           ∧ fst (run acceptAll defaultConfig () (None : option unit)
                    (start bareCcd railImage legacyHeader))
             = match fst (acceptAll (ccdExposure w1) ()) with
               | Some s => Ok s
               | None => Err IsrFailure
               end).
Proof.
  split.
  - apply (well_formed_run (Kernel := unit) acceptAll defaultConfig ()
             (start tripleCcd railImage legacyHeader)).
    + discriminate.
    + intros m Hm. vm_compute in Hm. injection Hm as <-.
      unfold Qle. vm_compute. discriminate.
    + unfold Qle. vm_compute. discriminate.
    + unfold Qle. vm_compute. discriminate.
    + exact legacyHeader_complete.
    + constructor; [now right |]. constructor; [now left |].
      constructor; [now left |]. constructor.
  - apply (well_formed_run (Kernel := unit) acceptAll defaultConfig ()
             (start bareCcd railImage legacyHeader)).
    + discriminate.
    + intros m Hm. vm_compute in Hm. injection Hm as <-.
      unfold Qle. vm_compute. discriminate.
    + unfold Qle. vm_compute. discriminate.
    + unfold Qle. vm_compute. discriminate.
    + exact legacyHeader_complete.
    + constructor.
Defined.

(** X5.  After the work before the delegation has succeeded, every
    amplifier of the new detector carries the same saturation level, the
    one that the estimate returned. *)
Theorem shared_saturation {Kernel} (config : CfhtIsrTaskConfig)
    (bfKernel : option Kernel) (w w1 : world) :
  prepare config bfKernel w = (Ok (), w1) →
  ∃ s, fst (detectSaturation config w) = Ok s
       ∧ Forall (λ a, saturation a = s)
           (amplifiers (detector (ccdExposure w1))).
Proof.
  intros Hprep.
  destruct (prepare_success config bfKernel w w1 Hprep)
    as (s & done & t & _ & Hsat & Hout & ->).
  exists s. split; [exact Hsat |]. cbn [ccdExposure detector withDetector
    amplifiers withAmplifiers].
  now apply ampsOutcome_description in Hout as [_ ?].
Qed.

Lemma shared_saturation_witness :
  ∃ s, fst (detectSaturation defaultConfig
              (start tripleCcd railImage legacyHeader)) = Ok s
       ∧ Forall (λ a, saturation a = s)
           (amplifiers (detector (ccdExposure
              (snd (prepare defaultConfig (None : option unit)
                      (start tripleCcd railImage legacyHeader)))))).
Proof.
  apply (shared_saturation defaultConfig (None : option unit)
           (start tripleCcd railImage legacyHeader)).
  vm_compute. reflexivity.
Defined.

(** X6.  A successful pass replaces the amplifiers of the exposure's
    detector and nothing else: the pixels, the header and the identity of
    the detector (name, id, serial, bounding box) are as they were. *)
Theorem only_amplifiers_replaced {Kernel} (config : CfhtIsrTaskConfig)
    (bfKernel : option Kernel) (w w1 : world) :
  prepare config bfKernel w = (Ok (), w1) →
  image (ccdExposure w1) = image (ccdExposure w)
  ∧ metadata (ccdExposure w1) = metadata (ccdExposure w)
  ∧ detName (detector (ccdExposure w1)) = detName (detector (ccdExposure w))
  ∧ detId (detector (ccdExposure w1)) = detId (detector (ccdExposure w))
  ∧ detSerial (detector (ccdExposure w1)) = detSerial (detector (ccdExposure w))
  ∧ detBBox (detector (ccdExposure w1)) = detBBox (detector (ccdExposure w)).
Proof.
  intros Hprep.
  destruct (prepare_success config bfKernel w w1 Hprep)
    as (s & done & t & _ & _ & _ & ->).
  repeat split.
Qed.

Lemma only_amplifiers_replaced_witness :
  image (ccdExposure (snd (prepare defaultConfig (None : option unit)
                             (start twoAmpCcd railImage legacyHeader))))
  = railImage
  ∧ metadata (ccdExposure (snd (prepare defaultConfig (None : option unit)
                                  (start twoAmpCcd railImage legacyHeader))))
    = legacyHeader.
Proof.
  destruct (only_amplifiers_replaced defaultConfig (None : option unit)
              (start twoAmpCcd railImage legacyHeader)
              (snd (prepare defaultConfig (None : option unit)
                      (start twoAmpCcd railImage legacyHeader))))
    as (Himg & Hmd & _); [vm_compute; reflexivity |].
  split; [exact Himg | exact Hmd].
Defined.

(** ** The estimate in the histogram branch *)

Lemma int_mono (x y : Q) : x <= y → (int x <= int y)%Z.
Proof.
  intros Hxy. destruct (Qlt_le_dec x 0) as [Hx | Hx].
  - destruct (Qlt_le_dec y 0) as [Hy | Hy].
    + rewrite !int_nonpos by lra.
      assert (Qfloor (- y) <= Qfloor (- x))%Z; [| lia].
      apply Qfloor_resp_le. lra.
    + pose proof (int_sign_nonpos x ltac:(lra)).
      pose proof (int_sign_nonneg y Hy). lia.
  - rewrite !int_nonneg by lra. now apply Qfloor_resp_le.
Qed.

(** X7.  When the largest pixel value exceeds 60000 the header plays no
    part in the estimate: no key is read, and every exposure with the same
    image gets the same outcome, a level or an arithmetic failure.  For
    pixel values that are binary64 numbers and a [safe] between 0 and 1
    the estimate succeeds whether or not SATURATE is there, and its only
    actions are the histogram call and the log record. *)
Theorem histogram_branch_ignores_header (config : CfhtIsrTaskConfig)
    (w w2 : world) (m : Q) :
  np_max (ravel (image (ccdExposure w))) = Ok m →
  60000 < m →
  image (ccdExposure w2) = image (ccdExposure w) →
  ∃ r t, detectSaturation config w = (r, later w t)
         ∧ (∀ key, ReadScalar key ∉ t)
         ∧ fst (detectSaturation config w2) = r
         ∧ (m <= b64_max → 0 <= safe config → safe config <= 1 →
            ∃ s, r = Ok s
                 ∧ t = [Histogram (Fin 60000) (b64_add (Fin m) (Fin 1));
                        LogInfo (int s)]).
Proof.
  intros Hmax Hm Himg.
  assert (Hmax2 : np_max (ravel (image (ccdExposure w2))) = Ok m)
    by (now rewrite Himg).
  rewrite (detectSaturation_histogram config w m Hmax Hm).
  rewrite (detectSaturation_histogram config w2 m Hmax2 Hm), Himg.
  destruct (histogramLevel (safe config) (ravel (image (ccdExposure w))) m)
    as [s | e] eqn:Hlevel.
  - eexists _, _. split; [reflexivity |]. split; [| split; [reflexivity |]].
    + intros key. rewrite !not_elem_of_cons. repeat split; try discriminate.
      apply not_elem_of_nil.
    + intros _ _ _. eauto.
  - eexists _, _. split; [reflexivity |]. split; [| split; [reflexivity |]].
    + intros key. rewrite !not_elem_of_cons. repeat split; try discriminate.
      apply not_elem_of_nil.
    + intros Hfin Hs0 Hs1. exfalso.
      destruct (peakEdge_finite (ravel (image (ccdExposure w))) m Hm Hfin)
        as (_ & _ & _ & L & _ & _ & _ & _ & _ & HL0 & HL1 & Hp).
      destruct (level_fraction (safe config) L Hs0 Hs1 ltac:(lra) HL1)
        as (p & Hprod & _ & _).
      unfold histogramLevel in Hlevel. rewrite Hp in Hlevel.
      cbn [bindR] in Hlevel. rewrite Hprod in Hlevel. discriminate.
Qed.

Lemma histogram_branch_ignores_header_witness :
  ∃ s, detectSaturation defaultConfig (start twoAmpCcd railImage legacyHeader)
       = (Ok s, later (start twoAmpCcd railImage legacyHeader)
                  [Histogram (Fin 60000) (b64_add (Fin 60001) (Fin 1));
                   LogInfo (int s)])
       ∧ fst (detectSaturation defaultConfig (start oddCcd railImage ∅)) = Ok s.
Proof.
  destruct (histogram_branch_ignores_header defaultConfig
              (start twoAmpCcd railImage legacyHeader)
              (start oddCcd railImage ∅) 60001)
    as (r & t & Hrun & _ & Hsame & Hok);
    [reflexivity | unfold Qlt; simpl; lia | reflexivity |].
  destruct Hok as (s & -> & ->).
  - unfold Qle. vm_compute. discriminate.
  - unfold Qle. vm_compute. discriminate.
  - unfold Qle. vm_compute. discriminate.
  - exists s. split; [exact Hrun | exact Hsame].
Defined.



(** The level can exceed the exact product of [safe] and the largest pixel
    value: with the binary64 number nearest to 1/3 and a single pixel of
    60009 the product rounds up to 20003. *)
Example saturation_above_exact_product :
  fst (detectSaturation {| safe := literal (1 # 3) |}
         (start twoAmpCcd [[60009]] legacyHeader)) = Ok 20003
  ∧ literal (1 # 3) * 60009 < 20003.
Proof. split; vm_compute; reflexivity. Qed.

(** X9.  In the histogram branch the saturation level grows with [safe]:
    of two configurations on the same exposure, the one with the larger
    [safe] never gives the smaller level. *)
Theorem saturation_monotone (config config' : CfhtIsrTaskConfig) (w : world)
    (m s s' : Q) :
  np_max (ravel (image (ccdExposure w))) = Ok m →
  60000 < m →
  safe config <= safe config' →
  fst (detectSaturation config w) = Ok s →
  fst (detectSaturation config' w) = Ok s' →
  s <= s'.
Proof.
  intros Hmax Hm Hsafe Hs Hs'.
  rewrite (detectSaturation_histogram config w m Hmax Hm) in Hs.
  rewrite (detectSaturation_histogram config' w m Hmax Hm) in Hs'.
  destruct (histogramLevel_cases (safe config) (ravel (image (ccdExposure w)))
              m Hm)
    as [[Herr _] | (L & HL & HL0 & _ & [(p & Hp & Hok) | (sg & _ & Herr)])];
    rewrite ?Herr, ?Hok in Hs; cbn [fst] in Hs; try discriminate.
  injection Hs as <-.
  unfold histogramLevel in Hs'. rewrite HL in Hs'. cbn [bindR] in Hs'.
  destruct (b64_mul (Fin (safe config')) (Fin L)) as [p' | |] eqn:Hp';
    cbn [py_int bindR fst] in Hs'; try discriminate.
  injection Hs' as <-.
  rewrite <- Zle_Qle. apply int_mono.
  assert (Hle : safe config * L <= safe config' * L).
  { assert (0 <= (safe config' - safe config) * L)
      by (apply Qmult_le_0_compat; lra). lra. }
  pose proof (round_mono _ _ Hle) as Hmono.
  unfold b64_mul in Hp, Hp'. rewrite Hp, Hp' in Hmono. exact Hmono.
Qed.

Lemma saturation_monotone_witness : -30000 <= 57000.
Proof.
  apply (saturation_monotone {| safe := -1 # 2 |} defaultConfig
           (start twoAmpCcd railImage legacyHeader) 60001 (-30000) 57000);
    [reflexivity | unfold Qlt; simpl; lia | unfold Qle; vm_compute; discriminate
    | vm_compute; reflexivity | vm_compute; reflexivity].
Defined.

(** ** Faint pixels *)

Lemma bright_true (v : Q) : bright v = true ↔ 60000 <= v.
Proof. unfold bright. apply Qle_bool_iff. Qed.

Lemma filter_bright_cons (y : Q) (t : list Q) :
  filter bright (y :: t)
  = if bright y then y :: filter bright t else filter bright t.
Proof.
  rewrite filter_cons. destruct (bright y); simpl; reflexivity.
Qed.

Lemma foldl_fmax_bright (t : list Q) (x : Q) :
  60000 <= x → foldl fmax x (filter bright t) = foldl fmax x t.
Proof.
  revert x. induction t as [| y t IH]; intros x Hx; [reflexivity |].
  rewrite filter_bright_cons. destruct (bright y) eqn:Hy; simpl.
  - apply IH. unfold fmax. destruct (Qgtb y x) eqn:E; [| exact Hx].
    now apply bright_true.
  - assert (Hfaint : ¬ 60000 <= y).
    { intros H. apply bright_true in H. congruence. }
    assert (fmax x y = x) as ->.
    { unfold fmax. destruct (Qgtb y x) eqn:E; [| reflexivity].
      apply Qgtb_true in E. exfalso. apply Hfaint. lra. }
    now apply IH.
Qed.

Lemma foldl_fmax_faint (t : list Q) (x : Q) :
  x < 60000 → filter bright t ≠ [] →
  np_max (filter bright t) = Ok (foldl fmax x t).
Proof.
  revert x. induction t as [| y t IH]; intros x Hx Hne;
    [exfalso; apply Hne; reflexivity |].
  rewrite filter_bright_cons in *. destruct (bright y) eqn:Hy; simpl.
  - apply bright_true in Hy.
    assert (fmax x y = y) as ->.
    { unfold fmax. assert (Qgtb y x = true) as -> by (apply Qgtb_true; lra).
      reflexivity. }
    f_equal. now apply foldl_fmax_bright.
  - apply IH; [| exact Hne]. unfold fmax.
    destruct (Qgtb y x) eqn:E; [| exact Hx].
    apply Qnot_le_lt. intros H. apply bright_true in H. congruence.
Qed.

(** The maximum of an array with a bright value is the maximum of its
    bright values. *)
Lemma np_max_bright (a : list Q) :
  filter bright a ≠ [] → np_max (filter bright a) = np_max a.
Proof.
  destruct a as [| y t]; [intros Hne; exfalso; apply Hne; reflexivity |].
  intros Hne. destruct (bright y) eqn:Hy.
  - rewrite filter_bright_cons, Hy. simpl. f_equal.
    apply foldl_fmax_bright. now apply bright_true.
  - rewrite filter_bright_cons, Hy in *. simpl.
    apply foldl_fmax_faint; [| exact Hne].
    apply Qnot_le_lt. intros H. apply bright_true in H. congruence.
Qed.

(** The histogram over a range that starts at 60000 only counts bright
    values. *)
Lemma np_histogram_bright (a : list Q) (m : Q) :
  60000 < m →
  np_histogram (filter bright a) 100 (histogramRange m)
  = np_histogram a 100 (histogramRange m).
Proof.
  intros Hm.
  destruct (histogramRange_cases m Hm) as [(h & -> & Hh1 & _) | [-> _]];
    [| reflexivity].
  unfold np_histogram. rewrite (path_outer_edges h Hh1).
  assert (filter (λ v, b64_leb (Fin 60000) (Fin v) && b64_leb (Fin v) (Fin h))
            (filter bright a)
          = filter (λ v, b64_leb (Fin 60000) (Fin v) && b64_leb (Fin v) (Fin h))
              a) as ->; [| reflexivity].
  apply list_filter_filter_l. intros v Hv.
  apply andb_prop_elim in Hv as [Hv _]. exact Hv.
Qed.

(** X10.  When the largest pixel value exceeds 60000, the pixels below
    60000 play no part: two images with the same values at or above 60000,
    in the same order, get the same saturation level. *)
Theorem faint_pixels_ignored (config : CfhtIsrTaskConfig) (w w2 : world) (m : Q) :
  np_max (ravel (image (ccdExposure w))) = Ok m →
  60000 < m →
  filter bright (ravel (image (ccdExposure w2)))
  = filter bright (ravel (image (ccdExposure w))) →
  fst (detectSaturation config w2) = fst (detectSaturation config w).
Proof.
  intros Hmax Hm Hsame.
  set (a := ravel (image (ccdExposure w))) in *.
  set (a2 := ravel (image (ccdExposure w2))) in *.
  assert (Hne : filter bright a ≠ []).
  { destruct (np_max_spec a m Hmax) as [Hin _].
    assert (Hb : m ∈ filter bright a).
    { apply list_elem_of_filter. split; [| exact Hin].
      apply Is_true_true, bright_true. lra. }
    intros Hnil. rewrite Hnil in Hb. inversion Hb. }
  assert (Hmax2 : np_max a2 = Ok m).
  { rewrite <- np_max_bright by (now rewrite Hsame).
    rewrite Hsame, np_max_bright by exact Hne. exact Hmax. }
  rewrite (detectSaturation_histogram config w m Hmax Hm).
  rewrite (detectSaturation_histogram config w2 m Hmax2 Hm).
  fold a a2.
  assert (histogramLevel (safe config) a2 m = histogramLevel (safe config) a m)
    as ->.
  { unfold histogramLevel, peakEdge.
    rewrite <- (np_histogram_bright a2 m Hm), Hsame.
    now rewrite (np_histogram_bright a m Hm). }
  destruct (histogramLevel (safe config) a m); reflexivity.
Qed.

Lemma faint_pixels_ignored_witness :
  fst (detectSaturation defaultConfig (start twoAmpCcd mixedImage legacyHeader))
  = fst (detectSaturation defaultConfig (start twoAmpCcd railImage legacyHeader)).
Proof.
  apply (faint_pixels_ignored defaultConfig
           (start twoAmpCcd railImage legacyHeader)
           (start twoAmpCcd mixedImage legacyHeader) 60001);
    [reflexivity | unfold Qlt; simpl; lia | reflexivity].
Defined.

(** ** Missing keys in the loop *)

(** X11.  The gain key is the first one read for an amplifier: when GAINA
    (GAINB) is absent the loop body fails with MissingMetadata for that key
    after this single read, whatever else the header holds. *)
Theorem gain_key_required (saturate : Q) (amp : Amplifier) (w : world) (key : string) :
  (name amp = "A" ∧ key = "GAINA") ∨ (name amp = "B" ∧ key = "GAINB") →
  metadata (ccdExposure w) !! key = None →
  repairAmp saturate amp w = (Err (MissingMetadata key), later w [ReadScalar key]).
Proof.
  intros Hcase Hk.
  unfold repairAmp, rebuildAmp, getName. cbn [name setSaturation].
  destruct Hcase as [[Hn ->] | [Hn ->]]; rewrite Hn;
    cbn [String.eqb Ascii.eqb Bool.eqb];
    erewrite bind_eval by apply getScalar_eval;
    unfold lookupScalar; rewrite Hk; reflexivity.
Qed.

Lemma gain_key_required_witness :
  repairAmp 57000 (ampNamed "B") (start twoAmpCcd faintImage bareHeader)
  = (Err (MissingMetadata "GAINB"),
     later (start twoAmpCcd faintImage bareHeader) [ReadScalar "GAINB"]).
Proof.
  apply (gain_key_required 57000 (ampNamed "B")
           (start twoAmpCcd faintImage bareHeader) "GAINB");
    [right; split; reflexivity | reflexivity].
Defined.

(** X12.  When the read noise of an amplifier exceeds 60000 the fallback
    key is needed: with RDNOISE absent the loop body fails with
    MissingMetadata for RDNOISE, after reading the gain, the amplifier's
    own read noise and RDNOISE, in this order. *)
Theorem fallback_key_required (saturate : Q) (amp : Amplifier) (w : world)
    (g r : Q) (gainKey noiseKey : string) :
  (name amp = "A" ∧ gainKey = "GAINA" ∧ noiseKey = "RDNOISEA")
  ∨ (name amp = "B" ∧ gainKey = "GAINB" ∧ noiseKey = "RDNOISEB") →
  metadata (ccdExposure w) !! gainKey = Some g →
  metadata (ccdExposure w) !! noiseKey = Some r →
  60000 < r →
  metadata (ccdExposure w) !! "RDNOISE" = None →
  repairAmp saturate amp w
  = (Err (MissingMetadata "RDNOISE"),
     later w [ReadScalar gainKey; ReadScalar noiseKey; ReadScalar "RDNOISE"]).
Proof.
  intros Hcase Hg Hr Hbig Hnone. apply Qgtb_true in Hbig.
  unfold repairAmp, rebuildAmp, getName. cbn [name setSaturation].
  destruct Hcase as [(Hn & -> & ->) | (Hn & -> & ->)]; rewrite Hn;
    cbn [String.eqb Ascii.eqb Bool.eqb];
    erewrite bind_eval by apply getScalar_eval;
    unfold lookupScalar at 1; rewrite Hg;
    erewrite bind_eval by apply getScalar_eval;
    unfold lookupScalar at 1; cbn [later ccdExposure]; rewrite Hr, Hbig;
    erewrite bind_eval by apply getScalar_eval;
    unfold lookupScalar; cbn [later ccdExposure]; rewrite Hnone;
    rewrite !later_later; reflexivity.
Qed.

Lemma fallback_key_required_witness :
  repairAmp 57000 (ampNamed "A")
    (start twoAmpCcd faintImage (delete "RDNOISE" legacyHeader))
  = (Err (MissingMetadata "RDNOISE"),
     later (start twoAmpCcd faintImage (delete "RDNOISE" legacyHeader))
       [ReadScalar "GAINA"; ReadScalar "RDNOISEA"; ReadScalar "RDNOISE"]).
Proof.
  apply (fallback_key_required 57000 (ampNamed "A")
           (start twoAmpCcd faintImage (delete "RDNOISE" legacyHeader))
           (162 # 100) 65535 "GAINA" "RDNOISEA");
    [left; repeat split | reflexivity | reflexivity
    | unfold Qlt; simpl; lia | reflexivity].
Defined.

(** ** What the result depends on *)

Lemma ampOutcome_agree md md' saturate amp :
  (∀ key, key ∈ amplifierKeys → md !! key = md' !! key) →
  ampOutcome md saturate amp = ampOutcome md' saturate amp.
Proof.
  intros Hkeys. unfold ampOutcome, lookupScalar.
  rewrite !(Hkeys "GAINA"), !(Hkeys "RDNOISEA"), !(Hkeys "GAINB"),
    !(Hkeys "RDNOISEB"), !(Hkeys "RDNOISE")
    by (unfold amplifierKeys; set_solver).
  reflexivity.
Qed.

Lemma ampOutcome_sound_noise md md' saturate amp :
  (∀ key, key ≠ "RDNOISE" → md !! key = md' !! key) →
  (∀ r, md !! "RDNOISEA" = Some r → r <= 60000) →
  (∀ r, md !! "RDNOISEB" = Some r → r <= 60000) →
  ampOutcome md saturate amp = ampOutcome md' saturate amp.
Proof.
  intros Hkeys HA HB. unfold ampOutcome, lookupScalar.
  rewrite <- !(Hkeys "GAINA"), <- !(Hkeys "RDNOISEA"), <- !(Hkeys "GAINB"),
    <- !(Hkeys "RDNOISEB") by discriminate.
  destruct (String.eqb (name amp) "A"); [| destruct (String.eqb (name amp) "B")];
    [| | reflexivity].
  - destruct (md !! "GAINA"); [| reflexivity]. simpl.
    destruct (md !! "RDNOISEA") as [r |] eqn:Hr; [| reflexivity]. simpl.
    assert (Qgtb r 60000 = false) as -> by (apply Qgtb_false; auto).
    reflexivity.
  - destruct (md !! "GAINB"); [| reflexivity]. simpl.
    destruct (md !! "RDNOISEB") as [r |] eqn:Hr; [| reflexivity]. simpl.
    assert (Qgtb r 60000 = false) as -> by (apply Qgtb_false; auto).
    reflexivity.
Qed.

Lemma ampsOutcome_ext md md' saturate amps :
  (∀ amp, ampOutcome md saturate amp = ampOutcome md' saturate amp) →
  ampsOutcome md saturate amps = ampsOutcome md' saturate amps.
Proof.
  intros H. induction amps as [| amp rest IH]; simpl; [reflexivity |].
  now rewrite H, IH.
Qed.

(** X13.  RDNOISE matters only for corrupted read noise: when the values
    under RDNOISEA and RDNOISEB, where present, are at most 60000, the
    repair of a detector gives the same result, or the same failure,
    whatever the header holds under RDNOISE, or if the key is absent. *)
Theorem fallback_key_unused (saturate : Q) (ccd : Detector) (w w2 : world) :
  (∀ key, key ≠ "RDNOISE" →
          metadata (ccdExposure w) !! key = metadata (ccdExposure w2) !! key) →
  (∀ r, metadata (ccdExposure w) !! "RDNOISEA" = Some r → r <= 60000) →
  (∀ r, metadata (ccdExposure w) !! "RDNOISEB" = Some r → r <= 60000) →
  fst (repairDetector saturate ccd w2) = fst (repairDetector saturate ccd w).
Proof.
  intros Hkeys HA HB.
  destruct (repairDetector_eval saturate ccd w) as [t ->].
  destruct (repairDetector_eval saturate ccd w2) as [t2 ->].
  cbn [fst].
  rewrite (ampsOutcome_ext (metadata (ccdExposure w))
             (metadata (ccdExposure w2)) saturate (amplifiers ccd));
    [reflexivity |].
  intros amp. now apply ampOutcome_sound_noise.
Qed.

Lemma fallback_key_unused_witness :
  fst (repairDetector 57000 twoAmpCcd
         (start twoAmpCcd faintImage (<["RDNOISE" := 52 # 10]> soundHeader)))
  = fst (repairDetector 57000 twoAmpCcd (start twoAmpCcd faintImage soundHeader)).
Proof.
  apply (fallback_key_unused 57000 twoAmpCcd
           (start twoAmpCcd faintImage soundHeader)
           (start twoAmpCcd faintImage (<["RDNOISE" := 52 # 10]> soundHeader))).
  - intros key Hne. cbn [metadata ccdExposure start].
    now rewrite lookup_insert_ne.
  - intros r Hr. vm_compute in Hr. injection Hr as <-. unfold Qle. simpl. lia.
  - intros r Hr. vm_compute in Hr. injection Hr as <-. unfold Qle. simpl. lia.
Defined.

(** X14.  [run] looks at the header through six keys only: on two
    exposures with the same detector and image whose headers agree on
    SATURATE, GAINA, RDNOISEA, GAINB, RDNOISEB and RDNOISE, the work before
    the delegation ends the same way and leaves the same detector. *)
Theorem other_keys_ignored {Kernel} (config : CfhtIsrTaskConfig)
    (bfKernel : option Kernel) (w w2 : world) :
  detector (ccdExposure w2) = detector (ccdExposure w) →
  image (ccdExposure w2) = image (ccdExposure w) →
  (∀ key, key ∈ runKeys →
          metadata (ccdExposure w2) !! key = metadata (ccdExposure w) !! key) →
  fst (prepare config bfKernel w2) = fst (prepare config bfKernel w)
  ∧ detector (ccdExposure (snd (prepare config bfKernel w2)))
    = detector (ccdExposure (snd (prepare config bfKernel w))).
Proof.
  intros Hdet Himg Hkeys.
  destruct bfKernel as [b |]; [rewrite !prepare_rejects; auto |].
  destruct (prepare_eval (Kernel := Kernel) config w) as [t ->].
  destruct (prepare_eval (Kernel := Kernel) config w2) as [t2 ->].
  rewrite (detectSaturation_agree config w w2 Himg)
    by (apply Hkeys, list_elem_of_here).
  destruct (fst (detectSaturation config w)) as [s |]; [| auto].
  cbv zeta. rewrite Hdet.
  rewrite (ampsOutcome_ext (metadata (ccdExposure w2))
             (metadata (ccdExposure w)) s).
  2:{ intros amp. apply ampOutcome_agree. intros key Hin.
      apply Hkeys. now apply list_elem_of_further. }
  destruct (ampsOutcome _ _ _); simpl; auto.
Qed.

Lemma other_keys_ignored_witness :
  fst (prepare defaultConfig (None : option unit)
         (start twoAmpCcd railImage busyHeader))
  = fst (prepare defaultConfig (None : option unit)
           (start twoAmpCcd railImage legacyHeader))
  ∧ detector (ccdExposure (snd (prepare defaultConfig (None : option unit)
                                  (start twoAmpCcd railImage busyHeader))))
    = detector (ccdExposure (snd (prepare defaultConfig (None : option unit)
                                    (start twoAmpCcd railImage legacyHeader)))).
Proof.
  apply (other_keys_ignored defaultConfig (None : option unit)
           (start twoAmpCcd railImage legacyHeader)
           (start twoAmpCcd railImage busyHeader)); [reflexivity | reflexivity |].
  unfold runKeys, amplifierKeys. intros key Hin.
  repeat (apply elem_of_cons in Hin as [-> | Hin]; [reflexivity |]).
  inversion Hin.
Defined.

(** X15.  Running the work before the delegation again on the exposure it
    produced succeeds and produces the same exposure: the estimate only
    reads pixels and header, which are unchanged, and the repair does not
    look at the calibration scalars it overwrote. *)
Theorem prepare_idempotent {Kernel} (config : CfhtIsrTaskConfig)
    (bfKernel : option Kernel) (w w1 : world) :
  prepare config bfKernel w = (Ok (), w1) →
  ∃ w2, prepare config bfKernel w1 = (Ok (), w2)
        ∧ ccdExposure w2 = ccdExposure w1.
Proof.
  intros Hprep.
  destruct (prepare_success config bfKernel w w1 Hprep)
    as (s & done & t & -> & Hsat & Hout & ->).
  set (w1 := {| ccdExposure := _; trace := _ |}).
  destruct (prepare_eval (Kernel := Kernel) config w1) as [u ->].
  rewrite (detectSaturation_agree config w w1) by reflexivity.
  rewrite Hsat. cbv zeta.
  cbn [w1 ccdExposure detector withDetector metadata amplifiers withAmplifiers].
  apply ampsOutcome_description in Hout as Hdesc. destruct Hdesc as [Hdesc _].
  rewrite <- (ampsOutcome_same _ s _ _ Hdesc), Hout.
  eexists. split; reflexivity.
Qed.

Lemma prepare_idempotent_witness :
  ∃ w2, prepare defaultConfig (None : option unit)
          (snd (prepare defaultConfig (None : option unit)
                  (start staleCcd railImage legacyHeader)))
        = (Ok (), w2)
        ∧ ccdExposure w2
          = ccdExposure (snd (prepare defaultConfig (None : option unit)
                                (start staleCcd railImage legacyHeader))).
Proof.
  apply (prepare_idempotent defaultConfig (None : option unit)
           (start staleCcd railImage legacyHeader)).
  vm_compute. reflexivity.
Defined.

(** The saturation level enters the outcome through the saturation field
    only. *)
Lemma ampOutcome_saturation md s s0 amp :
  ampOutcome md s amp = mapR (setSaturation s) (ampOutcome md s0 amp).
Proof.
  unfold ampOutcome.
  destruct (String.eqb (name amp) "A"); [| destruct (String.eqb (name amp) "B")];
    [| | reflexivity]; outcome_cases md; reflexivity.
Qed.

Lemma ampsOutcome_saturation md s s0 amps :
  ampsOutcome md s amps = mapR (map (setSaturation s)) (ampsOutcome md s0 amps).
Proof.
  induction amps as [| amp rest IH]; simpl; [reflexivity |].
  rewrite (ampOutcome_saturation md s s0 amp), IH.
  destruct (ampOutcome md s0 amp); simpl; [| reflexivity].
  destruct (ampsOutcome md s0 rest); reflexivity.
Qed.

(** X16.  Pixels and [safe] reach the amplifiers through the saturation
    field only: two successful passes over exposures with the same header
    and the same detector, whatever their images and configurations, leave
    amplifiers that agree pairwise on gain, read noise and every field
    other than saturation. *)
Theorem calibration_from_header_only {Kernel} (config config' : CfhtIsrTaskConfig)
    (bfKernel : option Kernel) (w w' w1 w1' : world) :
  metadata (ccdExposure w') = metadata (ccdExposure w) →
  detector (ccdExposure w') = detector (ccdExposure w) →
  prepare config bfKernel w = (Ok (), w1) →
  prepare config' bfKernel w' = (Ok (), w1') →
  Forall2 (λ a b, gain a = gain b ∧ readNoise a = readNoise b
                  ∧ same_description a b)
    (amplifiers (detector (ccdExposure w1)))
    (amplifiers (detector (ccdExposure w1'))).
Proof.
  intros Hmd Hdet Hprep Hprep'.
  destruct (prepare_success config bfKernel w w1 Hprep)
    as (s & done & t & _ & _ & Hout & ->).
  destruct (prepare_success config' bfKernel w' w1' Hprep')
    as (s' & done' & t' & _ & _ & Hout' & ->).
  cbn [ccdExposure detector withDetector amplifiers withAmplifiers].
  rewrite Hmd, Hdet in Hout'.
  rewrite (ampsOutcome_saturation _ s' s) in Hout'. rewrite Hout in Hout'.
  simpl in Hout'. injection Hout' as <-.
  clear. induction done as [| a rest IH]; simpl; constructor; [| exact IH].
  unfold same_description. simpl. tauto.
Qed.

Lemma calibration_from_header_only_witness :
  Forall2 (λ a b, gain a = gain b ∧ readNoise a = readNoise b
                  ∧ same_description a b)
    (amplifiers (detector (ccdExposure
       (snd (prepare defaultConfig (None : option unit)
               (start twoAmpCcd railImage legacyHeader))))))
    (amplifiers (detector (ccdExposure
       (snd (prepare {| safe := 3 |} (None : option unit)
               (start twoAmpCcd faintImage legacyHeader)))))).
Proof.
  apply (calibration_from_header_only defaultConfig {| safe := 3 |}
           (None : option unit)
           (start twoAmpCcd railImage legacyHeader)
           (start twoAmpCcd faintImage legacyHeader));
    [reflexivity | reflexivity | vm_compute; reflexivity
    | vm_compute; reflexivity].
Defined.

(** ** The log record *)

(** X17.  The estimate writes its log record exactly when it has found a
    level, once, and the record shows the level as [%d] prints it, cut to
    its integer part: the level itself in the histogram branch, the
    integer part of SATURATE in the metadata branch.  A failed estimate
    logs nothing.  In either case the exposure is not touched. *)
Theorem log_record (config : CfhtIsrTaskConfig) (w w' : world) (r : result Q) :
  detectSaturation config w = (r, w') →
  ∃ t, w' = later w t
       ∧ filter is_log t = match r with
                           | Ok s => [LogInfo (int s)]
                           | Err _ => []
                           end.
Proof.
  rewrite detectSaturation_eval.
  destruct (np_max (ravel (image (ccdExposure w)))) as [m | e].
  - destruct (Qgtb m 60000).
    + cbv zeta. destruct (histogramLevel _ _ _); intros [= <- <-];
        eexists; split; reflexivity.
    + destruct (metadata (ccdExposure w) !! "SATURATE"); intros [= <- <-];
        eexists; split; reflexivity.
  - intros [= <- <-]. exists []. split; [now rewrite later_nil | reflexivity].
Qed.

Lemma log_record_witness :
  ∃ t, snd (detectSaturation defaultConfig
              (start twoAmpCcd faintImage legacyHeader))
       = later (start twoAmpCcd faintImage legacyHeader) t
       ∧ filter is_log t = [LogInfo 65535].
Proof.
  apply (log_record defaultConfig (start twoAmpCcd faintImage legacyHeader)
           _ (Ok 65535)).
  vm_compute. reflexivity.
Defined.

(** A SATURATE of 1.5 is returned as it is and logged as 1. *)
Example log_record_truncates :
  detectSaturation defaultConfig
    (start twoAmpCcd faintImage {[ "SATURATE" := 3 # 2 ]})
  = (Ok (3 # 2),
     later (start twoAmpCcd faintImage {[ "SATURATE" := 3 # 2 ]})
       [ReadScalar "SATURATE"; LogInfo 1]).
Proof. reflexivity. Qed.
